(** * veryFastRouter: a shallow embedding of the router and its properties

    The Go sources are embedded as executable Rocq functions:
    - a Go [string] is a [string] (a sequence of bytes), indexed with
      [String.get] and sliced with [String.substring];
    - a run-time panic (index out of range, nil dereference, an explicit
      [panic(...)]) is the [Panic] branch of [result];
    - [*route] pointers are addresses into a store of routes owned by the
      router, so that the writes [HandleFunc] performs through the pointer
      returned by [addRoute] are seen through the registry;
    - methods of [*HttpRouter] that write the router thread it explicitly and
      return the router as it is when they return or panic. *)

From Stdlib Require Import Ascii String.
From stdpp Require Import gmap strings list fin_maps.

Local Open Scope string_scope.
Local Open Scope list_scope.
Local Open Scope nat_scope.
Local Open Scope stdpp_scope.

(** ** Panics and results *)

Inductive panic : Type :=
| IndexOutOfRange
| NilDereference
| PanicError (err : string)
| MethodsNotDefined (pattern : string)
| HandlerNotDefined (pattern : string).

Inductive result (A : Type) : Type :=
| Ok (a : A)
| Panic (p : panic).

Arguments Ok {A} a.
Arguments Panic {A} p.

Definition rbind {A B : Type} (m : result A) (k : A → result B) : result B :=
  match m with
  | Ok a => k a
  | Panic p => Panic p
  end.

Notation "'let*' x ':=' m 'in' k" := (rbind m (fun x => k))
  (at level 10, x name, m at level 100, k at level 200).

Definition returns {A : Type} (m : result A) : Prop := ∃ a, m = Ok a.

(** ** Go strings *)

(** [s[i]]: panics when [i] is not an index of [s]. *)
Definition byte_at (s : string) (i : nat) : result ascii :=
  match String.get i s with
  | Some c => Ok c
  | None => Panic IndexOutOfRange
  end.

(** [c == n] for a byte [c] and a numeric literal [n]. *)
Definition is_byte (c : ascii) (n : nat) : bool := Nat.eqb (nat_of_ascii c) n.

(** [s[i:]] for [i <= len(s)]. *)
Definition slice_from (s : string) (i : nat) : string :=
  String.substring i (String.length s - i) s.

(** [s[:i]] for [i <= len(s)]. *)
Definition slice_to (s : string) (i : nat) : string :=
  String.substring 0 i s.

(** ** Constants and types *)

Definition bufferSize : nat := 50.

Definition Method : Type := string.
Definition GET : Method := "GET".
Definition POST : Method := "POST".
Definition AllMethods : list Method := [GET; POST].

(** A handler is an opaque callback; it is identified by a number. *)
Definition HandlerFunc : Type := nat.

Definition StatusNotFound : nat := 404.
Definition StatusMethodNotAllowed : nat := 405.

Record pathDetails : Type := mkPathDetails {
  count : nat;
  segments : list string
}.

Record segment : Type := mkSegment {
  value : string;
  isVariable : bool;
  ok : bool
}.

(** Modelled from the spec: the declaration of the type [route] is not part
    of the sources at hand. Its fields are the attributes of a Route, which
    are also the fields the sources read and write: [originalPattern],
    [segments] (here [rsegments], the name [segments] being taken by
    [pathDetails]), [hasVariables], [methods] and [handler]. A nil slice is
    the empty list and a nil handler is [None]. *)
Record route : Type := mkRoute {
  originalPattern : string;
  rsegments : list segment;
  hasVariables : bool;
  methods : list Method;
  handler : option HandlerFunc
}.

(** A [*route]. *)
Definition ptr : Type := nat.

(** The router, with the store of the routes its pointers point to. The type
    of [httpStatusCodeHandlers] is not part of the sources at hand; the field
    is the table [handlers] the sources index by status code. *)
Record HttpRouter : Type := mkHttpRouter {
  heap : list route;
  staticRoutes : gmap string ptr;
  variableRoutes : list ptr;
  httpStatusCodeHandlers : gmap nat HandlerFunc
}.

Record Request : Type := mkRequest {
  reqMethod : string;
  reqPath : string
}.

(** ** Tokenizing and compiling a pattern *)

Definition newSegment (seg : string) : result segment :=
  let* c := byte_at seg 1 in
  Ok {| value := seg; isVariable := is_byte c 58; ok := true |}.

(** The loop of [splitPath]; the first argument is [i + 1], so that the loop
    ends when it reaches [0]. After a separator at [i] the path is cut to
    [path[:i]] and [i] is reset to its length, which is [i] again. *)
Fixpoint splitPath_loop (n : nat) (path : string) (buffer : list segment)
  : result (list segment) :=
  match n with
  | 0 => Ok buffer
  | S i =>
    let* c := byte_at path i in
    if negb (is_byte c 47) then splitPath_loop i path buffer
    else
      let* seg := newSegment (slice_from path i) in
      splitPath_loop i (slice_to path i) (buffer ++ [seg])
  end.

Definition splitPath (path : string) : result (list segment) :=
  splitPath_loop (String.length path) path [].

(** [splitIntoSegments] is a second copy of the same loop. *)
Fixpoint splitIntoSegments_loop (n : nat) (path : string) (buffer : list segment)
  : result (list segment) :=
  match n with
  | 0 => Ok buffer
  | S i =>
    let* c := byte_at path i in
    if negb (is_byte c 47) then splitIntoSegments_loop i path buffer
    else
      let* seg := newSegment (slice_from path i) in
      splitIntoSegments_loop i (slice_to path i) (buffer ++ [seg])
  end.

Definition splitIntoSegments (path : string) : result (list segment) :=
  splitIntoSegments_loop (String.length path) path [].

(** [s[len(s)-1]] is read before [len(s) > 1] is tested: the empty string
    panics. *)
Definition processPath (s : string) : result string :=
  match String.length s with
  | 0 => Panic IndexOutOfRange
  | S n =>
    let* c := byte_at s n in
    if is_byte c 47 && Nat.ltb 1 (String.length s) then Ok (slice_to s n)
    else Ok s
  end.

Definition removeTrailingSlash (s : string) : result string :=
  match String.length s with
  | 0 => Panic IndexOutOfRange
  | S n =>
    let* c := byte_at s n in
    if is_byte c 47 && Nat.ltb 1 (String.length s) then Ok (slice_to s n)
    else Ok s
  end.

(** An [error] value; [None] is nil. *)
Definition error : Type := option string.

(** The double quote, and the second message of [fullPathCheck], in which
    the source quotes the separator. *)
Definition quote : string := String (ascii_of_nat 34) "".

Definition mustBeginWithSeparator : string :=
  String.append "path must begin with "
    (String.append quote (String.append "/" quote)).

Definition fullPathCheck (path : string) : result (string * error) :=
  if String.eqb path "" then
    Ok (path, Some "path supplied cannot be an empty string")
  else
    let* c := byte_at path 0 in
    if negb (is_byte c 47) then Ok (path, Some mustBeginWithSeparator)
    else
      let* path' := removeTrailingSlash path in
      Ok (path', None).

(** The loop of [newRoute] that sets [hasVariables]. *)
Fixpoint anyVariable (segs : list segment) : bool :=
  match segs with
  | [] => false
  | seg :: rest => if negb (isVariable seg) then anyVariable rest else true
  end.

(** [newRoute] returns the address of a fresh route; here it returns the
    route, and the caller places it in the store. The error it returns is
    always nil. *)
Definition newRoute (path : string) : result (route * error) :=
  let* path := processPath path in
  let* segs := splitPath path in
  Ok ({| originalPattern := path;
         rsegments := segs;
         hasVariables := anyVariable segs;
         methods := [];
         handler := None |}, None).

(** ** The registry *)

Definition alloc (h : list route) (rt : route) : ptr * list route :=
  (length h, h ++ [rt]).

(** Reading through a [*route]. *)
Definition deref (h : list route) (p : ptr) : result route :=
  match h !! p with
  | Some rt => Ok rt
  | None => Panic NilDereference
  end.

(** Writing a field through a [*route]. *)
Definition assign (h : list route) (p : ptr) (f : route → route)
  : result (list route) :=
  match h !! p with
  | Some rt => Ok (<[p := f rt]> h)
  | None => Panic NilDereference
  end.

Definition setMethods (ms : list Method) (rt : route) : route :=
  {| originalPattern := originalPattern rt;
     rsegments := rsegments rt;
     hasVariables := hasVariables rt;
     methods := ms;
     handler := handler rt |}.

Definition setHandler (hd : option HandlerFunc) (rt : route) : route :=
  {| originalPattern := originalPattern rt;
     rsegments := rsegments rt;
     hasVariables := hasVariables rt;
     methods := methods rt;
     handler := hd |}.

Definition withHeap (r : HttpRouter) (h : list route) : HttpRouter :=
  {| heap := h;
     staticRoutes := staticRoutes r;
     variableRoutes := variableRoutes r;
     httpStatusCodeHandlers := httpStatusCodeHandlers r |}.

Definition addRoute (r : HttpRouter) (pattern : string)
  : result (option ptr * error) * HttpRouter :=
  match newRoute pattern with
  | Panic e => (Panic e, r)
  | Ok (_, Some err) => (Ok (None, Some err), r)
  | Ok (rt, None) =>
    let (p, h) := alloc (heap r) rt in
    if negb (hasVariables rt) then
      (Ok (Some p, None),
       {| heap := h;
          staticRoutes := <[originalPattern rt := p]> (staticRoutes r);
          variableRoutes := variableRoutes r;
          httpStatusCodeHandlers := httpStatusCodeHandlers r |})
    else
      (Ok (Some p, None),
       {| heap := h;
          staticRoutes := staticRoutes r;
          variableRoutes := variableRoutes r ++ [p];
          httpStatusCodeHandlers := httpStatusCodeHandlers r |})
  end.

Definition HandleFunc (r : HttpRouter) (pattern : string) (ms : list Method)
    (hd : option HandlerFunc) : result unit * HttpRouter :=
  match addRoute r pattern with
  | (Panic e, r1) => (Panic e, r1)
  | (Ok (_, Some err), r1) => (Panic (PanicError err), r1)
  | (Ok (None, None), r1) => (Panic NilDereference, r1)
  | (Ok (Some p, None), r1) =>
    match assign (heap r1) p (setMethods ms) with
    | Panic e => (Panic e, r1)
    | Ok h2 =>
      let r2 := withHeap r1 h2 in
      if Nat.eqb (length ms) 0 then (Panic (MethodsNotDefined pattern), r2)
      else
        match assign (heap r2) p (setHandler hd) with
        | Panic e => (Panic e, r2)
        | Ok h3 =>
          let r3 := withHeap r2 h3 in
          match hd with
          | None => (Panic (HandlerNotDefined pattern), r3)
          | Some _ => (Ok (), r3)
          end
        end
    end
  end.

(** ** Matching a request path *)

(** [pd.segments[pd.count] = s]: the array has [bufferSize] entries and the
    write is bounds-checked. *)
Definition writeSegment (pd : pathDetails) (s : string) : result pathDetails :=
  if Nat.ltb (count pd) (length (segments pd)) then
    Ok {| count := count pd; segments := <[count pd := s]> (segments pd) |}
  else Panic IndexOutOfRange.

(** The tokenizing loop of [findRoute]; the first argument is [i + 1]. *)
Fixpoint findRoute_split (n : nat) (path : string) (pd : pathDetails)
  : result pathDetails :=
  match n with
  | 0 => Ok pd
  | S i =>
    let* c := byte_at path i in
    if negb (is_byte c 47) then findRoute_split i path pd
    else
      let* pd1 := writeSegment pd (slice_from path i) in
      findRoute_split i (slice_to path i)
        {| count := S (count pd1); segments := segments pd1 |}
  end.

Definition emptyPathDetails : pathDetails :=
  {| count := 0; segments := replicate bufferSize "" |}.

Definition tokenize (path : string) : result pathDetails :=
  findRoute_split (String.length path) path emptyPathDetails.

Section Matching.

(** The method [compare] of [route] is not part of the sources at hand:
    [findRoute] and [ServeHTTP] are embedded over any such method. *)
Variable compare : route → pathDetails → bool.

(** The scan of [findRoute] over [variableRoutes], from the front. *)
Fixpoint findRoute_scan (h : list route) (vs : list ptr) (pd : pathDetails)
  : result (option ptr) :=
  match vs with
  | [] => Ok None
  | p :: rest =>
    let* rt := deref h p in
    if negb (compare rt pd) then findRoute_scan h rest pd
    else Ok (Some p)
  end.

Definition findRoute (r : HttpRouter) (path : string) : result (option ptr) :=
  let* path := processPath path in
  match staticRoutes r !! path with
  | Some p => Ok (Some p)
  | None =>
    let* pd := tokenize path in
    findRoute_scan (heap r) (variableRoutes r) pd
  end.

End Matching.

(** The loop of [ServeHTTP] over the methods of the route. *)
Fixpoint allowedMethod (ms : list Method) (m : string) : bool :=
  match ms with
  | [] => false
  | x :: rest => if negb (String.eqb x m) then allowedMethod rest m else true
  end.

(** What [ServeHTTP] calls: a status-code handler of the table or the handler
    of a route, with the callee as it is read ([None] is a nil function). *)
Inductive call : Type :=
| CallStatusCodeHandler (code : nat) (callee : option HandlerFunc)
| CallRouteHandler (p : ptr) (callee : option HandlerFunc).

Definition calleeOf (c : call) : option HandlerFunc :=
  match c with
  | CallStatusCodeHandler _ h => h
  | CallRouteHandler _ h => h
  end.

(** Calling a function value: the call is made when the function is not nil,
    and a call through a nil function panics with a nil dereference. *)
Definition invoke (c : call) : result call :=
  match calleeOf c with
  | Some _ => Ok c
  | None => Panic NilDereference
  end.

Definition ServeHTTP (compare : route → pathDetails → bool) (r : HttpRouter)
    (req : Request) : result call :=
  let* found := findRoute compare r (reqPath req) in
  match found with
  | None =>
    invoke (CallStatusCodeHandler StatusNotFound
              (httpStatusCodeHandlers r !! StatusNotFound))
  | Some p =>
    let* rt := deref (heap r) p in
    if negb (allowedMethod (methods rt) (reqMethod req)) then
      invoke (CallStatusCodeHandler StatusMethodNotAllowed
                (httpStatusCodeHandlers r !! StatusMethodNotAllowed))
    else invoke (CallRouteHandler p (handler rt))
  end.

(** The default fallback handlers, as opaque callbacks. *)
Definition default404 : HandlerFunc := 404.
Definition default405 : HandlerFunc := 405.

(** Modelled from the spec: [newCustomHttpCodeHandlers] is not part of the
    sources at hand. The table is pre-populated with default fallback handlers
    for the not found and method not allowed status codes. *)
Definition newCustomHttpCodeHandlers : gmap nat HandlerFunc :=
  <[StatusNotFound := default404]> (<[StatusMethodNotAllowed := default405]> ∅).

Definition NewRouter : HttpRouter :=
  {| heap := [];
     staticRoutes := ∅;
     variableRoutes := [];
     httpStatusCodeHandlers := newCustomHttpCodeHandlers |}.

(** Modelled from the spec: the method [compare] of [route] is not part of
    the sources at hand; this is its test at one position. If the candidate
    segment is variable, any non-empty value at that position matches; if
    literal, the incoming segment's string value must be exactly equal. *)
Definition segmentMatches (seg : segment) (s : string) : bool :=
  if isVariable seg then negb (String.eqb s "") else String.eqb (value seg) s.

(** Modelled from the spec: the positions of [compare], in order. All
    positions must match for the candidate to match; a position past the end
    of the buffer does not. *)
Fixpoint comparePositions (segs : list segment) (vals : list string) : bool :=
  match segs, vals with
  | [], _ => true
  | seg :: segs', v :: vals' => segmentMatches seg v && comparePositions segs' vals'
  | _ :: _, [] => false
  end.

(** Modelled from the spec: the method [compare] of [route] is not part of
    the sources at hand. Segment counts must be equal; then every position
    must match. *)
Definition compare (rt : route) (pd : pathDetails) : bool :=
  Nat.eqb (length (rsegments rt)) (count pd)
  && comparePositions (rsegments rt) (segments pd).

(** Every pointer of the registry points into the store. *)
Definition wf (r : HttpRouter) : Prop :=
  (∀ k p, staticRoutes r !! k = Some p → p < length (heap r))
  ∧ (∀ p, p ∈ variableRoutes r → p < length (heap r)).

(** The number of segments of a path: one for each separator. *)
Definition segmentCount (path : string) : nat :=
  length (filter (λ c, is_byte c 47 = true) (list_ascii_of_string path)).

(** ** The strings a tokenizing loop emits

    Both tokenizing loops walk the same indices; [emitted n path] lists, in
    the order of the walk, the strings cut off at the separators below index
    [n]. It is used to state what the loops compute. *)
Fixpoint emitted (n : nat) (path : string) : list string :=
  match n with
  | 0 => []
  | S i =>
    match String.get i path with
    | Some c =>
      if is_byte c 47 then slice_from path i :: emitted i (slice_to path i)
      else emitted i path
    | None => []
    end
  end.

Fixpoint newSegments (l : list string) : result (list segment) :=
  match l with
  | [] => Ok []
  | s :: rest =>
    let* seg := newSegment s in
    let* segs := newSegments rest in
    Ok (seg :: segs)
  end.

(** A path of [n] copies of [s]; [repeatString 51 "/a"] has 51 segments. *)
Fixpoint repeatString (n : nat) (s : string) : string :=
  match n with
  | 0 => ""
  | S k => (s ++ repeatString k s)%string
  end.

Definition longPath : string := repeatString 51 "/a".

(** Two variable routes, the broader pattern registered first. *)
Definition shadowingRouter : HttpRouter :=
  (HandleFunc (HandleFunc NewRouter "/:a/:b" [GET] (Some 1)).2
     "/users/:id" [GET] (Some 2)).2.

(** The routes of the concrete scenario. *)
Definition usersRouter : HttpRouter :=
  (HandleFunc
     (HandleFunc
        (HandleFunc NewRouter "/users" [GET] (Some 1)).2
        "/users/:id" [GET] (Some 2)).2
     "/users/:id/posts" [GET; POST] (Some 3)).2.

(** ** Overriding a status-code handler *)

(** The two explicit panics of [HttpStatusCodeHandler]; each stands for the
    message the source formats from the status code. *)
Inductive statusPanic : Type :=
| StatusCodeNotSupported (statusCode : Z)
| StatusHandlerNotDefined (statusCode : Z).

(** [handlers[statusCode]] for a Go [int]: the table holds status codes,
    which are not negative. *)
Definition lookupStatus (t : gmap nat HandlerFunc) (statusCode : Z)
  : option HandlerFunc :=
  if (statusCode <? 0)%Z then None else t !! Z.to_nat statusCode.

(** [HttpStatusCodeHandler] stores a closure that writes the status code and
    then calls the handler supplied; [wrap statusCode handler] is that
    closure, an opaque callback like the others. The result is [inr ()] when
    the method returns and [inl] a panic otherwise, with the router as the
    method leaves it. *)
Definition HttpStatusCodeHandler (wrap : Z → HandlerFunc → HandlerFunc)
    (r : HttpRouter) (statusCode : Z) (hd : option HandlerFunc)
  : (statusPanic + unit) * HttpRouter :=
  match lookupStatus (httpStatusCodeHandlers r) statusCode with
  | None => (inl (StatusCodeNotSupported statusCode), r)
  | Some _ =>
    match hd with
    | None => (inl (StatusHandlerNotDefined statusCode), r)
    | Some h =>
      (inr (),
       {| heap := heap r;
          staticRoutes := staticRoutes r;
          variableRoutes := variableRoutes r;
          httpStatusCodeHandlers :=
            <[Z.to_nat statusCode := wrap statusCode h]>
              (httpStatusCodeHandlers r) |})
    end
  end.

(** ** Notions used to state the properties *)

(** The indices of the separators of [path] below [n], the rightmost first:
    the indices are walked from [n - 1] down to [0]. *)
Fixpoint separatorsBelow (n : nat) (path : string) : list nat :=
  match n with
  | 0 => []
  | S i =>
    match String.get i path with
    | Some c =>
      if is_byte c 47 then i :: separatorsBelow i path
      else separatorsBelow i path
    | None => separatorsBelow i path
    end
  end.

(** The separators of a path, from the rightmost to the leftmost. *)
Definition separatorsFromRight (path : string) : list nat :=
  separatorsBelow (String.length path) path.

(** Where the segment at position [k] of a right-to-left tokenization ends:
    at the end of the path for the first one, and where the segment before
    it starts for the others. *)
Definition segmentEnd (starts : list nat) (len k : nat) : nat :=
  match k with
  | 0 => len
  | S k' => default len (starts !! k')
  end.

(** The strings of a list, one after the other. *)
Definition joinStrings (l : list string) : string :=
  fold_right String.append "" l.

(** A separator at index [i] with nothing after it before the next separator
    or the end of the path: its segment is the bare separator. *)
Definition bareSeparator (path : string) (i : nat) : Prop :=
  String.get i path = Some "/"%char
  ∧ (String.get (S i) path = None ∨ String.get (S i) path = Some "/"%char).

(** A separator at index [i] followed by the variable marker. *)
Definition variableMarker (path : string) (i : nat) : Prop :=
  String.get i path = Some "/"%char ∧ String.get (S i) path = Some ":"%char.

(** The static table holds routes without variables under their own pattern,
    and the variable sequence holds routes with variables. *)
Definition classified (r : HttpRouter) : Prop :=
  (∀ k q, staticRoutes r !! k = Some q →
     ∃ rt, heap r !! q = Some rt ∧ hasVariables rt = false
         ∧ originalPattern rt = k)
  ∧ (∀ q, q ∈ variableRoutes r →
       ∃ rt, heap r !! q = Some rt ∧ hasVariables rt = true).

(** Every route of the store has methods and a handler. *)
Definition complete (r : HttpRouter) : Prop :=
  ∀ q rt, heap r !! q = Some rt → methods rt ≠ [] ∧ handler rt ≠ None.

(** The two fallback handlers [ServeHTTP] calls are in the table. *)
Definition fallbacksDefined (r : HttpRouter) : Prop :=
  is_Some (httpStatusCodeHandlers r !! StatusNotFound)
  ∧ is_Some (httpStatusCodeHandlers r !! StatusMethodNotAllowed).

(** Routine steps of the case analysis of a dispatch. *)
Ltac dispatch_crush :=
  intros;
  repeat match goal with
         | H : ∃ _, _ |- _ => destruct H
         | H : _ ∧ _ |- _ => destruct H
         | H : _ ∨ _ |- _ => destruct H
         | H : is_Some _ |- _ => destruct H
         end;
  simplify_eq; try done; eauto 12.

(** * Properties *)

(** ** Bytes, strings and results *)

Lemma is_byte_eq (c : ascii) (n : nat) :
  n < 256 → is_byte c n = true ↔ c = ascii_of_nat n.
Proof.
  intros Hn. unfold is_byte. rewrite Nat.eqb_eq. split.
  - intros <-. symmetry. apply ascii_nat_embedding.
  - intros ->. apply nat_ascii_embedding. exact Hn.
Qed.

Lemma is_separator (c : ascii) : is_byte c 47 = true ↔ c = "/"%char.
Proof. apply (is_byte_eq c 47). lia. Qed.

Lemma is_marker (c : ascii) : is_byte c 58 = true ↔ c = ":"%char.
Proof. apply (is_byte_eq c 58). lia. Qed.

Lemma rbind_Ok {A B : Type} (m : result A) (k : A → result B) (b : B) :
  rbind m k = Ok b ↔ ∃ a, m = Ok a ∧ k a = Ok b.
Proof.
  destruct m as [a|e]; simpl; split.
  - intros H. exists a. auto.
  - intros (a' & [= <-] & H). exact H.
  - discriminate.
  - intros (a' & [=] & _).
Qed.

Lemma get_is_Some (s : string) (i : nat) :
  i < String.length s → ∃ c, String.get i s = Some c.
Proof.
  revert i. induction s as [|a s IH]; simpl; intros i Hi; [lia|].
  destruct i as [|i]; [eauto|]. apply IH. lia.
Qed.

Lemma get_None (s : string) (i : nat) :
  (String.length s ≤ i)%nat → String.get i s = None.
Proof.
  revert i. induction s as [|a s IH]; simpl; intros i Hi.
  - by destruct i.
  - destruct i as [|i]; [lia|]. apply IH. lia.
Qed.

Lemma byte_at_Ok (s : string) (i : nat) (c : ascii) :
  byte_at s i = Ok c ↔ String.get i s = Some c.
Proof.
  unfold byte_at. destruct (String.get i s); split; congruence.
Qed.

Lemma get_lookup (s : string) (i : nat) :
  String.get i s = list_ascii_of_string s !! i.
Proof.
  revert i. induction s as [|a s IH]; intros [|i]; simpl; auto.
Qed.

Lemma length_list_ascii (s : string) :
  length (list_ascii_of_string s) = String.length s.
Proof. induction s; simpl; auto. Qed.

Lemma length_append (s t : string) :
  String.length (s ++ t)%string = String.length s + String.length t.
Proof. induction s; simpl; auto. Qed.

Lemma get_append_end (s : string) (c : ascii) :
  String.get (String.length s) (s ++ String c "")%string = Some c.
Proof. induction s; simpl; auto. Qed.

Lemma slice_to_append (s t : string) :
  slice_to (s ++ t)%string (String.length s) = s.
Proof.
  unfold slice_to. induction s as [|a s IH]; simpl.
  - by destruct t.
  - by rewrite IH.
Qed.

(** A non-empty string is its prefix followed by its last byte. *)
Lemma string_last (s : string) (n : nat) (c : ascii) :
  String.length s = S n → String.get n s = Some c →
  s = (slice_to s n ++ String c "")%string.
Proof.
  unfold slice_to. revert n. induction s as [|a s IH]; simpl; intros n Hl Hg.
  - discriminate.
  - destruct n as [|n].
    + injection Hg as ->. destruct s; [reflexivity|discriminate].
    + change (String a s = String a (substring 0 n s ++ String c "")%string).
      f_equal. apply IH; [lia|exact Hg].
Qed.

(** ** Normalization *)

Lemma processPath_trailing (p : string) :
  p ≠ "" → processPath (p ++ "/")%string = Ok p.
Proof.
  intros Hp. unfold processPath.
  rewrite length_append, Nat.add_1_r.
  unfold byte_at. rewrite get_append_end. simpl rbind.
  assert (Hl : Nat.ltb 1 (S (String.length p)) = true).
  { apply Nat.ltb_lt. destruct p; [done|simpl; lia]. }
  rewrite Hl. simpl. by rewrite slice_to_append.
Qed.

Lemma processPath_no_trailing (p : string) :
  p ≠ "" → (∀ q, p ≠ (q ++ "/")%string) → processPath p = Ok p.
Proof.
  intros Hp Hq. unfold processPath.
  destruct (String.length p) as [|n] eqn:Hl.
  { destruct p; [done|discriminate]. }
  destruct (get_is_Some p n) as [c Hc]; [lia|].
  unfold byte_at. rewrite Hc. simpl rbind.
  destruct (is_byte c 47) eqn:Hb; [|reflexivity].
  apply is_separator in Hb. subst c.
  exfalso. apply (Hq (slice_to p n)). by apply string_last.
Qed.

Lemma processPath_root : processPath "/" = Ok "/".
Proof. reflexivity. Qed.

Lemma processPath_empty : processPath "" = Panic IndexOutOfRange.
Proof. reflexivity. Qed.

(** ** Registration *)

Lemma newRoute_Ok (pattern : string) (rt : route) (err : error) :
  newRoute pattern = Ok (rt, err) →
  err = None ∧ methods rt = [] ∧ handler rt = None
  ∧ processPath pattern = Ok (originalPattern rt)
  ∧ splitPath (originalPattern rt) = Ok (rsegments rt)
  ∧ hasVariables rt = anyVariable (rsegments rt).
Proof.
  unfold newRoute. intros H.
  apply rbind_Ok in H as (p & Hp & H).
  apply rbind_Ok in H as (segs & Hs & H).
  injection H as <- <-. simpl. repeat split; auto.
Qed.

Lemma addRoute_static (r : HttpRouter) (pattern : string) (rt : route) :
  newRoute pattern = Ok (rt, None) → hasVariables rt = false →
  addRoute r pattern =
    (Ok (Some (length (heap r)), None),
     {| heap := heap r ++ [rt];
        staticRoutes := <[originalPattern rt := length (heap r)]> (staticRoutes r);
        variableRoutes := variableRoutes r;
        httpStatusCodeHandlers := httpStatusCodeHandlers r |}).
Proof. intros Hn Hv. unfold addRoute. rewrite Hn. simpl. by rewrite Hv. Qed.

Lemma addRoute_variable (r : HttpRouter) (pattern : string) (rt : route) :
  newRoute pattern = Ok (rt, None) → hasVariables rt = true →
  addRoute r pattern =
    (Ok (Some (length (heap r)), None),
     {| heap := heap r ++ [rt];
        staticRoutes := staticRoutes r;
        variableRoutes := variableRoutes r ++ [length (heap r)];
        httpStatusCodeHandlers := httpStatusCodeHandlers r |}).
Proof. intros Hn Hv. unfold addRoute. rewrite Hn. simpl. by rewrite Hv. Qed.

(** [addRoute] returns a route exactly when [newRoute] does, and then the
    route is in the store at the address returned. *)
Lemma addRoute_Ok (r r1 : HttpRouter) (pattern : string) (res : option ptr * error) :
  addRoute r pattern = (Ok res, r1) →
  ∃ rt, newRoute pattern = Ok (rt, None)
      ∧ res = (Some (length (heap r)), None)
      ∧ heap r1 = heap r ++ [rt]
      ∧ httpStatusCodeHandlers r1 = httpStatusCodeHandlers r
      ∧ (if hasVariables rt
         then staticRoutes r1 = staticRoutes r
              ∧ variableRoutes r1 = variableRoutes r ++ [length (heap r)]
         else staticRoutes r1 = <[originalPattern rt := length (heap r)]> (staticRoutes r)
              ∧ variableRoutes r1 = variableRoutes r).
Proof.
  unfold addRoute. destruct (newRoute pattern) as [[rt err]|e] eqn:Hn; [|discriminate].
  destruct (newRoute_Ok _ _ _ Hn) as (-> & _).
  simpl. destruct (hasVariables rt) eqn:Hv; simpl; intros [= <- <-];
    exists rt; simpl; rewrite ?Hv; repeat split; auto.
Qed.

Lemma addRoute_Panic (r r1 : HttpRouter) (pattern : string) (e : panic) :
  addRoute r pattern = (Panic e, r1) → newRoute pattern = Panic e ∧ r1 = r.
Proof.
  unfold addRoute. destruct (newRoute pattern) as [[rt [err|]]|e'] eqn:Hn.
  - discriminate.
  - simpl. destruct (hasVariables rt); discriminate.
  - intros [= <- <-]. auto.
Qed.

Lemma wf_NewRouter : wf NewRouter.
Proof.
  split; simpl.
  - intros k p H. by rewrite lookup_empty in H.
  - intros p H. by apply not_elem_of_nil in H.
Qed.

Lemma wf_addRoute (r r1 : HttpRouter) (pattern : string)
    (res : result (option ptr * error)) :
  wf r → addRoute r pattern = (res, r1) → wf r1.
Proof.
  intros [Hs Hv] H. destruct res as [res|e].
  - apply addRoute_Ok in H as (rt & _ & _ & Hh & _ & Hr).
    split; rewrite Hh, length_app; simpl.
    + intros k p Hk. destruct (hasVariables rt); destruct Hr as [Hr1 Hr2].
      * rewrite Hr1 in Hk. apply Hs in Hk. lia.
      * rewrite Hr1 in Hk. destruct (decide (originalPattern rt = k)) as [Heq|Hne].
        -- rewrite Heq, lookup_insert_eq in Hk. injection Hk as <-. lia.
        -- rewrite lookup_insert_ne in Hk by done. apply Hs in Hk. lia.
    + intros p Hp. destruct (hasVariables rt); destruct Hr as [Hr1 Hr2].
      * rewrite Hr2 in Hp. apply elem_of_app in Hp as [Hp|Hp].
        -- apply Hv in Hp. lia.
        -- apply list_elem_of_singleton in Hp. lia.
      * rewrite Hr2 in Hp. apply Hv in Hp. lia.
  - apply addRoute_Panic in H as [_ ->]. by split.
Qed.

(** ** The tokenizing loops *)

Lemma list_ascii_slice_to (s : string) (i : nat) :
  list_ascii_of_string (slice_to s i) = take i (list_ascii_of_string s).
Proof.
  unfold slice_to. revert i. induction s as [|a s IH]; intros [|i]; simpl; auto.
  by rewrite IH.
Qed.

Lemma length_slice_to (s : string) (i : nat) :
  (i ≤ String.length s)%nat → String.length (slice_to s i) = i.
Proof.
  intros Hi. rewrite <- length_list_ascii, list_ascii_slice_to, length_take.
  rewrite length_list_ascii. lia.
Qed.

Lemma length_substring (s : string) (i m : nat) :
  i + m ≤ String.length s → String.length (String.substring i m s) = m.
Proof.
  revert i m. induction s as [|a s IH]; simpl; intros i m Hl.
  - destruct i, m; simpl; lia.
  - destruct i as [|i].
    + destruct m as [|m]; simpl; [done|]. rewrite IH by lia. done.
    + apply IH. lia.
Qed.

(** Every string the loops emit starts at a separator: it is not empty. *)
Lemma emitted_nonempty (n : nat) (path s : string) :
  n ≤ String.length path → s ∈ emitted n path → s ≠ "".
Proof.
  revert path. induction n as [|i IH]; intros path Hn; simpl.
  - intros H. by apply not_elem_of_nil in H.
  - destruct (String.get i path) as [c|]; [|intros H; by apply not_elem_of_nil in H].
    destruct (is_byte c 47).
    + intros H. apply elem_of_cons in H as [->|H].
      * intros He. assert (Hl : String.length (slice_from path i) = 0) by (by rewrite He).
        unfold slice_from in Hl. rewrite length_substring in Hl by lia. lia.
      * apply (IH (slice_to path i)); [|done]. rewrite length_slice_to; lia.
    + apply IH. lia.
Qed.

Lemma splitIntoSegments_loop_eq (n : nat) (path : string) (buffer : list segment) :
  splitIntoSegments_loop n path buffer = splitPath_loop n path buffer.
Proof.
  revert path buffer. induction n as [|i IH]; intros path buffer; simpl; [done|].
  destruct (byte_at path i) as [c|e]; simpl; [|done].
  destruct (is_byte c 47); simpl; [|apply IH].
  destruct (newSegment (slice_from path i)); simpl; [apply IH|done].
Qed.

Lemma newSegment_Ok (s : string) (seg : segment) :
  newSegment s = Ok seg →
  value seg = s ∧ ok seg = true
  ∧ ∃ c, String.get 1 s = Some c ∧ isVariable seg = is_byte c 58.
Proof.
  unfold newSegment. intros H. apply rbind_Ok in H as (c & Hc & H).
  apply byte_at_Ok in Hc. injection H as <-. simpl. eauto.
Qed.

Lemma newSegment_long (s : string) :
  (2 ≤ String.length s)%nat → ∃ seg, newSegment s = Ok seg.
Proof.
  intros Hl. destruct (get_is_Some s 1) as [c Hc]; [lia|].
  unfold newSegment, byte_at. rewrite Hc. simpl. eauto.
Qed.

Lemma newSegment_short (s : string) :
  (String.length s ≤ 1)%nat → newSegment s = Panic IndexOutOfRange.
Proof.
  intros Hl. unfold newSegment, byte_at. by rewrite (get_None s 1 Hl).
Qed.

Lemma newSegments_Ok (l : list string) (segs : list segment) :
  newSegments l = Ok segs → map value segs = l.
Proof.
  revert segs. induction l as [|s l IH]; simpl; intros segs H.
  - by injection H as <-.
  - apply rbind_Ok in H as (seg & Hseg & H).
    apply rbind_Ok in H as (rest & Hrest & H).
    injection H as <-. simpl.
    apply newSegment_Ok in Hseg as (-> & _). f_equal. by apply IH.
Qed.

Lemma newSegments_long (l : list string) :
  (∀ s, s ∈ l → (2 ≤ String.length s)%nat) → ∃ segs, newSegments l = Ok segs.
Proof.
  induction l as [|s l IH]; simpl; intros H; [eauto|].
  destruct (newSegment_long s) as [seg Hseg]; [apply H; left|].
  destruct IH as [segs Hsegs]; [intros t Ht; apply H; by right|].
  rewrite Hseg, Hsegs. simpl. eauto.
Qed.

Lemma splitPath_loop_spec (n : nat) (path : string) (buffer : list segment) :
  (n ≤ String.length path)%nat →
  splitPath_loop n path buffer =
    let* segs := newSegments (emitted n path) in Ok (buffer ++ segs).
Proof.
  revert path buffer. induction n as [|i IH]; intros path buffer Hn; simpl.
  - by rewrite app_nil_r.
  - destruct (get_is_Some path i) as [c Hc]; [lia|].
    unfold byte_at at 1. rewrite Hc. simpl.
    destruct (is_byte c 47); simpl; [|apply IH; lia].
    destruct (newSegment (slice_from path i)) as [seg|e]; simpl; [|done].
    rewrite IH by (rewrite length_slice_to; lia).
    destruct (newSegments (emitted i (slice_to path i))); simpl; [|done].
    by rewrite <- app_assoc.
Qed.

Lemma findRoute_split_spec (n : nat) (path : string) (pd : pathDetails) :
  (n ≤ String.length path)%nat → count pd ≤ length (segments pd) →
  findRoute_split n path pd =
    if decide (count pd + length (emitted n path) ≤ length (segments pd)) then
      Ok {| count := count pd + length (emitted n path);
            segments := take (count pd) (segments pd) ++ emitted n path
                        ++ drop (count pd + length (emitted n path)) (segments pd) |}
    else Panic IndexOutOfRange.
Proof.
  revert path pd. induction n as [|i IH]; intros path [k l] Hn Hk; simpl in *.
  - rewrite Nat.add_0_r, take_drop. by rewrite decide_True by lia.
  - destruct (get_is_Some path i) as [c Hc]; [lia|].
    unfold byte_at at 1. rewrite Hc. simpl.
    destruct (is_byte c 47); simpl; [|apply IH; simpl; lia].
    unfold writeSegment. simpl.
    destruct (Nat.ltb k (length l)) eqn:Hlt; simpl.
    + apply Nat.ltb_lt in Hlt.
      rewrite IH by (simpl; rewrite ?length_slice_to, ?length_insert; lia).
      simpl. rewrite length_insert.
      replace (S (k + length (emitted i (slice_to path i))))
        with (k + S (length (emitted i (slice_to path i)))) by lia.
      destruct (decide (k + S (length (emitted i (slice_to path i))) ≤ length l));
        [|done].
      f_equal. f_equal.
      rewrite (take_S_r _ _ (slice_from path i))
        by (by apply list_lookup_insert_eq).
      rewrite take_insert_ge by lia.
      rewrite drop_insert_lt by lia.
      by rewrite <- app_assoc.
    + apply Nat.ltb_ge in Hlt. by rewrite decide_False by lia.
Qed.

Lemma length_emitted (n : nat) (path : string) :
  n ≤ String.length path →
  length (emitted n path)
  = length (filter (λ c, is_byte c 47 = true) (take n (list_ascii_of_string path))).
Proof.
  revert path. induction n as [|i IH]; intros path Hn; [done|].
  destruct (get_is_Some path i) as [c Hc]; [lia|].
  simpl emitted. rewrite Hc.
  rewrite get_lookup in Hc.
  rewrite (take_S_r _ _ _ Hc), filter_app, length_app.
  destruct (is_byte c 47) eqn:Hb.
  - rewrite filter_cons_True, filter_nil by done. simpl.
    rewrite IH by (rewrite length_slice_to; lia).
    rewrite list_ascii_slice_to, take_take, Nat.min_id. lia.
  - rewrite filter_cons_False, filter_nil by (by rewrite Hb). simpl.
    rewrite IH by lia. lia.
Qed.

Lemma segmentCount_emitted (path : string) :
  length (emitted (String.length path) path) = segmentCount path.
Proof.
  rewrite length_emitted by lia. unfold segmentCount.
  by rewrite <- length_list_ascii, firstn_all.
Qed.

Lemma rbind_Ok_id {A : Type} (m : result A) : rbind m Ok = m.
Proof. by destruct m. Qed.

Lemma splitPath_spec (path : string) :
  splitPath path = newSegments (emitted (String.length path) path).
Proof.
  unfold splitPath. rewrite splitPath_loop_spec by lia. simpl.
  apply rbind_Ok_id.
Qed.

Lemma splitIntoSegments_eq (path : string) :
  splitIntoSegments path = splitPath path.
Proof. apply splitIntoSegments_loop_eq. Qed.

Lemma tokenize_spec (path : string) :
  tokenize path =
    if decide (segmentCount path ≤ bufferSize) then
      Ok {| count := segmentCount path;
            segments := emitted (String.length path) path
                        ++ replicate (bufferSize - segmentCount path) "" |}
    else Panic IndexOutOfRange.
Proof.
  unfold tokenize.
  rewrite findRoute_split_spec by (simpl; lia).
  change (count emptyPathDetails) with 0.
  change (segments emptyPathDetails) with (replicate bufferSize "").
  rewrite length_replicate, segmentCount_emitted, !Nat.add_0_l.
  destruct (decide (segmentCount path ≤ bufferSize)); [|done].
  by rewrite take_0, drop_replicate.
Qed.

Lemma tokenize_Ok (path : string) (pd : pathDetails) :
  tokenize path = Ok pd →
  count pd = segmentCount path
  ∧ count pd ≤ bufferSize
  ∧ length (segments pd) = bufferSize
  ∧ take (count pd) (segments pd) = emitted (String.length path) path.
Proof.
  rewrite tokenize_spec.
  destruct (decide (segmentCount path ≤ bufferSize)) as [Hle|]; [|discriminate].
  intros [= <-]. simpl. repeat split; [done| |].
  - rewrite length_app, length_replicate, segmentCount_emitted. lia.
  - by rewrite take_app_length' by (by rewrite segmentCount_emitted).
Qed.

(** ** Classifying a segment *)

(** C6: [newSegment] reads the byte at index 1. For a segment of length at
    least 2 the read is in bounds and the segment is variable exactly when
    that byte is the marker [:]; for a segment of length 1 the read is out of
    range, and the root pattern, whose only segment is the bare separator,
    makes [splitPath] panic there. *)
Theorem newSegment_reads_index_one :
  (∀ seg, 2 ≤ String.length seg →
     ∃ sg, newSegment seg = Ok sg ∧ value sg = seg
         ∧ (isVariable sg = true ↔ String.get 1 seg = Some ":"%char))
  ∧ (∀ seg, String.length seg = 1 → newSegment seg = Panic IndexOutOfRange)
  ∧ emitted (String.length "/") "/" = ["/"]
  ∧ splitPath "/" = Panic IndexOutOfRange.
Proof.
  split; [|split; [|split]].
  - intros seg Hl. destruct (newSegment_long seg Hl) as [sg Hsg].
    exists sg. destruct (newSegment_Ok _ _ Hsg) as (Hv & _ & c & Hc & Hi).
    split; [done|]. split; [done|]. rewrite Hi, Hc, is_marker.
    split; [by intros ->|by intros [= ->]].
  - intros seg Hl. apply newSegment_short. lia.
  - reflexivity.
  - reflexivity.
Qed.

Lemma newSegment_reads_index_one_witness :
  ∃ sg, newSegment "/:id" = Ok sg ∧ value sg = "/:id"
      ∧ (isVariable sg = true ↔ String.get 1 "/:id" = Some ":"%char).
Proof.
  apply (proj1 newSegment_reads_index_one "/:id"). simpl. lia.
Defined.

(** ** The segment buffer *)

(** C7 (amended): a normalized path with at most 50 segments is tokenized
    with every write in bounds; a path with more than 50 segments that is not
    a key of the static table makes [findRoute] panic with an index out of
    range at the write past the buffer. *)
Theorem segment_buffer_bounds :
  (∀ path, segmentCount path ≤ bufferSize →
     ∃ pd, tokenize path = Ok pd ∧ count pd = segmentCount path)
  ∧ (∀ cmp r path p,
       processPath path = Ok p → staticRoutes r !! p = None →
       bufferSize < segmentCount p →
       findRoute cmp r path = Panic IndexOutOfRange).
Proof.
  split.
  - intros path Hle. rewrite tokenize_spec, decide_True by done. eauto.
  - intros cmp r path p Hp Hs Hgt. unfold findRoute.
    rewrite Hp. simpl. rewrite Hs, tokenize_spec, decide_False by lia. done.
Qed.

Lemma segment_buffer_bounds_witness :
  (∃ pd, tokenize "/users/42/posts" = Ok pd
       ∧ count pd = segmentCount "/users/42/posts")
  ∧ findRoute compare NewRouter longPath = Panic IndexOutOfRange.
Proof.
  split.
  - apply (proj1 segment_buffer_bounds "/users/42/posts"). vm_compute. lia.
  - apply (proj2 segment_buffer_bounds compare NewRouter longPath longPath).
    + vm_compute. reflexivity.
    + apply lookup_empty.
    + vm_compute. lia.
Defined.

(** C7, as first stated, fails: a path of 51 segments does not overflow the
    buffer silently, [findRoute] does not return. *)
Lemma segment_buffer_no_silent_overflow :
  bufferSize < segmentCount longPath
  ∧ ¬ returns (findRoute compare NewRouter longPath).
Proof.
  split; [vm_compute; lia|].
  intros [res Hres]. vm_compute in Hres. discriminate.
Qed.

(** ** The two tokenizers *)

Example splitPath_order :
  splitPath "/users/:id/posts"
  = Ok [ {| value := "/posts"; isVariable := false; ok := true |};
         {| value := "/:id"; isVariable := true; ok := true |};
         {| value := "/users"; isVariable := false; ok := true |} ].
Proof. reflexivity. Qed.

Example tokenize_order :
  ∃ pd, tokenize "/users/42/posts" = Ok pd ∧ count pd = 3
      ∧ take 3 (segments pd) = ["/posts"; "/42"; "/users"].
Proof. eexists. split; [reflexivity|]. split; reflexivity. Qed.

(** [splitIntoSegments] is [splitPath]; whenever [splitPath] returns at most
    50 segments the loop of [findRoute] returns the same strings in the same
    order, position for position, and whenever that loop returns strings of
    at least two bytes each [splitPath] returns them as the values of its
    segments. *)
Lemma tokenizers_same_strings (path : string) :
  splitIntoSegments path = splitPath path
  ∧ (∀ segs, splitPath path = Ok segs → length segs ≤ bufferSize →
       ∃ pd, tokenize path = Ok pd ∧ count pd = length segs
           ∧ take (count pd) (segments pd) = map value segs)
  ∧ (∀ pd, tokenize path = Ok pd →
       (∀ s, s ∈ take (count pd) (segments pd) → 2 ≤ String.length s) →
       ∃ segs, splitPath path = Ok segs ∧ count pd = length segs
             ∧ map value segs = take (count pd) (segments pd)).
Proof.
  split; [apply splitIntoSegments_eq|]. split.
  - intros segs Hs Hle. rewrite splitPath_spec in Hs.
    apply newSegments_Ok in Hs.
    assert (Hc : segmentCount path = length segs).
    { by rewrite <- segmentCount_emitted, <- Hs, List.length_map. }
    rewrite tokenize_spec, decide_True by lia.
    eexists. split; [reflexivity|]. simpl. split; [done|].
    rewrite Hs. apply take_app_length'. by rewrite segmentCount_emitted.
  - intros pd Hpd Hlong.
    destruct (tokenize_Ok _ _ Hpd) as (Hc & _ & _ & Ht).
    rewrite Ht in Hlong.
    destruct (newSegments_long _ Hlong) as [segs Hsegs].
    exists segs. rewrite splitPath_spec. split; [done|].
    apply newSegments_Ok in Hsegs.
    split; [|by rewrite Ht].
    by rewrite Hc, <- segmentCount_emitted, <- Hsegs, List.length_map.
Qed.

(** C9, as first stated, fails on a normalized path of 51 segments:
    [splitPath] returns its 51 segments and the loop of [findRoute] panics. *)
Lemma tokenizers_differ_on_long_path :
  processPath longPath = Ok longPath
  ∧ (∃ segs, splitPath longPath = Ok segs ∧ length segs = 51)
  ∧ tokenize longPath = Panic IndexOutOfRange.
Proof.
  split; [vm_compute; reflexivity|]. split.
  - eexists. split; [vm_compute; reflexivity|reflexivity].
  - vm_compute. reflexivity.
Qed.

(** On the root path the two differ as well: [splitPath] panics in
    [newSegment] and the loop of [findRoute] emits the bare separator. *)
Lemma tokenizers_differ_on_root :
  splitPath "/" = Panic IndexOutOfRange
  ∧ ∃ pd, tokenize "/" = Ok pd ∧ count pd = 1 ∧ take 1 (segments pd) = ["/"].
Proof.
  split; [reflexivity|]. eexists. split; [reflexivity|]. split; reflexivity.
Qed.

(** ** Finding a route *)

Lemma findRoute_static (cmp : route → pathDetails → bool) (r : HttpRouter)
    (path p : string) (q : ptr) :
  processPath path = Ok p → staticRoutes r !! p = Some q →
  findRoute cmp r path = Ok (Some q).
Proof. intros Hp Hs. unfold findRoute. rewrite Hp. simpl. by rewrite Hs. Qed.

Lemma findRoute_variable (cmp : route → pathDetails → bool) (r : HttpRouter)
    (path p : string) (pd : pathDetails) :
  processPath path = Ok p → staticRoutes r !! p = None → tokenize p = Ok pd →
  findRoute cmp r path = findRoute_scan cmp (heap r) (variableRoutes r) pd.
Proof.
  intros Hp Hs Ht. unfold findRoute. rewrite Hp. simpl. by rewrite Hs, Ht.
Qed.

Lemma findRoute_scan_first (cmp : route → pathDetails → bool) (h : list route)
    (pd : pathDetails) (pre post : list ptr) (q : ptr) (rt : route) :
  (∀ q', q' ∈ pre → ∃ rt', h !! q' = Some rt' ∧ cmp rt' pd = false) →
  h !! q = Some rt → cmp rt pd = true →
  findRoute_scan cmp h (pre ++ q :: post) pd = Ok (Some q).
Proof.
  intros Hpre Hq Hc. induction pre as [|q' pre IH]; simpl.
  - unfold deref. rewrite Hq. simpl. by rewrite Hc.
  - destruct (Hpre q') as (rt' & Hq' & Hc'); [left|].
    unfold deref. rewrite Hq'. simpl. rewrite Hc'. simpl.
    apply IH. intros q'' Hin. apply Hpre. by right.
Qed.

Lemma findRoute_scan_Some (cmp : route → pathDetails → bool) (h : list route)
    (vs : list ptr) (pd : pathDetails) (q : ptr) :
  findRoute_scan cmp h vs pd = Ok (Some q) →
  q ∈ vs ∧ ∃ rt, h !! q = Some rt ∧ cmp rt pd = true.
Proof.
  induction vs as [|q' vs IH]; simpl; [discriminate|].
  unfold deref. destruct (h !! q') as [rt'|] eqn:Hq'; simpl; [|discriminate].
  destruct (cmp rt' pd) eqn:Hc; simpl.
  - intros [= <-]. split; [left|eauto].
  - intros H. destruct (IH H) as [Hin Hrt]. split; [by right|done].
Qed.

(** In a well-formed router the pointer [findRoute] returns points to a
    route. *)
Lemma findRoute_points (cmp : route → pathDetails → bool) (r : HttpRouter)
    (path : string) (q : ptr) :
  wf r → findRoute cmp r path = Ok (Some q) → ∃ rt, heap r !! q = Some rt.
Proof.
  intros [Hs Hv]. unfold findRoute. intros H.
  apply rbind_Ok in H as (p & Hp & H).
  destruct (staticRoutes r !! p) as [q'|] eqn:Hq.
  - injection H as ->. apply lookup_lt_is_Some_2. by eapply Hs.
  - apply rbind_Ok in H as (pd & Hpd & H).
    apply findRoute_scan_Some in H as (_ & rt & Hrt & _). eauto.
Qed.

(** C1: when the normalized path is a key of the static table, [findRoute]
    returns that static route, whatever the variable routes, the store and
    the comparison are; in particular a static pattern and a variable pattern
    registered in either order leave the static route the one found. *)
Theorem static_route_wins :
  (∀ cmp r path p q,
     processPath path = Ok p → staticRoutes r !! p = Some q →
     findRoute cmp r path = Ok (Some q)
     ∧ ∀ cmp' h vs,
         findRoute cmp'
           {| heap := h; staticRoutes := staticRoutes r; variableRoutes := vs;
              httpStatusCodeHandlers := httpStatusCodeHandlers r |} path
         = Ok (Some q))
  ∧ (∀ cmp r ps pv rs rv path,
       newRoute ps = Ok (rs, None) → hasVariables rs = false →
       newRoute pv = Ok (rv, None) → hasVariables rv = true →
       processPath path = Ok (originalPattern rs) →
       ∃ q1 q2,
         findRoute cmp (addRoute (addRoute r ps).2 pv).2 path = Ok (Some q1)
         ∧ heap (addRoute (addRoute r ps).2 pv).2 !! q1 = Some rs
         ∧ findRoute cmp (addRoute (addRoute r pv).2 ps).2 path = Ok (Some q2)
         ∧ heap (addRoute (addRoute r pv).2 ps).2 !! q2 = Some rs).
Proof.
  split.
  - intros cmp r path p q Hp Hs. split.
    + by apply findRoute_static with p.
    + intros cmp' h vs. by apply findRoute_static with p.
  - intros cmp r ps pv rs rv path Hs Hsv Hv Hvv Hp.
    exists (length (heap r)), (length (heap r ++ [rv])).
    rewrite (addRoute_static r ps rs Hs Hsv). simpl.
    rewrite (addRoute_variable _ pv rv Hv Hvv). simpl.
    rewrite (addRoute_variable r pv rv Hv Hvv). simpl.
    rewrite (addRoute_static _ ps rs Hs Hsv). simpl.
    split; [|split; [|split]].
    + apply findRoute_static with (originalPattern rs); [done|].
      simpl. apply lookup_insert_eq.
    + rewrite lookup_app_l by (rewrite length_app; simpl; lia).
      by rewrite lookup_app_r, Nat.sub_diag.
    + apply findRoute_static with (originalPattern rs); [done|].
      simpl. apply lookup_insert_eq.
    + by rewrite lookup_app_r, Nat.sub_diag.
Qed.

Lemma static_route_wins_witness :
  ∃ q1 q2,
    findRoute compare (addRoute (addRoute NewRouter "/users/me").2 "/users/:id").2
      "/users/me/" = Ok (Some q1)
    ∧ heap (addRoute (addRoute NewRouter "/users/me").2 "/users/:id").2 !! q1
      = Some {| originalPattern := "/users/me";
                rsegments := [ {| value := "/me"; isVariable := false; ok := true |};
                               {| value := "/users"; isVariable := false; ok := true |} ];
                hasVariables := false; methods := []; handler := None |}
    ∧ findRoute compare (addRoute (addRoute NewRouter "/users/:id").2 "/users/me").2
        "/users/me/" = Ok (Some q2)
    ∧ heap (addRoute (addRoute NewRouter "/users/:id").2 "/users/me").2 !! q2
      = Some {| originalPattern := "/users/me";
                rsegments := [ {| value := "/me"; isVariable := false; ok := true |};
                               {| value := "/users"; isVariable := false; ok := true |} ];
                hasVariables := false; methods := []; handler := None |}.
Proof.
  apply (proj2 static_route_wins compare NewRouter "/users/me" "/users/:id"
           {| originalPattern := "/users/me";
              rsegments := [ {| value := "/me"; isVariable := false; ok := true |};
                             {| value := "/users"; isVariable := false; ok := true |} ];
              hasVariables := false; methods := []; handler := None |}
           {| originalPattern := "/users/:id";
              rsegments := [ {| value := "/:id"; isVariable := true; ok := true |};
                             {| value := "/users"; isVariable := false; ok := true |} ];
              hasVariables := true; methods := []; handler := None |});
    reflexivity.
Defined.

(** C3: a variable route is appended at the end of [variableRoutes], and
    [findRoute], when the path is not a static key, returns the first route of
    the sequence whose [compare] succeeds, whatever follows it in the
    sequence. *)
Theorem first_registered_variable_route_wins :
  (∀ r pattern rt,
     newRoute pattern = Ok (rt, None) → hasVariables rt = true →
     (addRoute r pattern).1 = Ok (Some (length (heap r)), None)
     ∧ variableRoutes (addRoute r pattern).2 = variableRoutes r ++ [length (heap r)]
     ∧ staticRoutes (addRoute r pattern).2 = staticRoutes r
     ∧ heap (addRoute r pattern).2 = heap r ++ [rt])
  ∧ (∀ cmp r path p pd pre q rt post,
       processPath path = Ok p → staticRoutes r !! p = None →
       tokenize p = Ok pd →
       variableRoutes r = pre ++ q :: post →
       (∀ q', q' ∈ pre → ∃ rt', heap r !! q' = Some rt' ∧ cmp rt' pd = false) →
       heap r !! q = Some rt → cmp rt pd = true →
       findRoute cmp r path = Ok (Some q)).
Proof.
  split.
  - intros r pattern rt Hn Hv. by rewrite (addRoute_variable r pattern rt Hn Hv).
  - intros cmp r path p pd pre q rt post Hp Hs Ht Hvs Hpre Hq Hc.
    rewrite (findRoute_variable cmp r path p pd Hp Hs Ht), Hvs.
    by apply findRoute_scan_first with rt.
Qed.

(** A broad pattern registered first shadows a more specific one registered
    later. *)
Lemma first_registered_variable_route_wins_witness :
  findRoute compare shadowingRouter "/users/42" = Ok (Some 0).
Proof.
  apply (proj2 first_registered_variable_route_wins compare shadowingRouter
           "/users/42" "/users/42"
           {| count := 2; segments := ["/42"; "/users"] ++ replicate 48 "" |}
           [] 0
           {| originalPattern := "/:a/:b";
              rsegments := [ {| value := "/:b"; isVariable := true; ok := true |};
                             {| value := "/:a"; isVariable := true; ok := true |} ];
              hasVariables := true; methods := [GET]; handler := Some 1 |}
           [1]).
  - reflexivity.
  - reflexivity.
  - reflexivity.
  - reflexivity.
  - intros q' Hq'. by apply not_elem_of_nil in Hq'.
  - reflexivity.
  - reflexivity.
Defined.

Example later_route_more_specific :
  ∃ rt, heap shadowingRouter !! 1 = Some rt
      ∧ originalPattern rt = "/users/:id"
      ∧ ∃ pd, tokenize "/users/42" = Ok pd ∧ compare rt pd = true.
Proof.
  eexists. split; [reflexivity|]. split; [reflexivity|].
  eexists. split; reflexivity.
Qed.

(** ** Trailing separators *)

(** C8: the root path is left unchanged by normalization, and for every
    non-empty path [p] without a trailing separator [findRoute] gives the same
    result on [p] followed by a separator and on [p]. *)
Theorem trailing_separator_insensitive :
  processPath "/" = Ok "/"
  ∧ ∀ cmp r p,
      p ≠ "" → (∀ q, p ≠ (q ++ "/")%string) →
      processPath (p ++ "/")%string = Ok p
      ∧ findRoute cmp r (p ++ "/")%string = findRoute cmp r p.
Proof.
  split; [reflexivity|].
  intros cmp r p Hp Hq. split; [by apply processPath_trailing|].
  unfold findRoute.
  by rewrite (processPath_trailing p Hp), (processPath_no_trailing p Hp Hq).
Qed.

Lemma no_trailing_separator (p : string) (n : nat) (c : ascii) :
  String.length p = S n → String.get n p = Some c → c ≠ "/"%char →
  ∀ q, p ≠ (q ++ "/")%string.
Proof.
  intros Hl Hg Hc q ->.
  rewrite length_append in Hl. simpl in Hl.
  assert (n = String.length q) as -> by lia.
  rewrite get_append_end in Hg. congruence.
Qed.

Lemma trailing_separator_insensitive_witness :
  processPath "/a/b/" = Ok "/a/b"
  ∧ findRoute compare shadowingRouter "/a/b/" = findRoute compare shadowingRouter "/a/b".
Proof.
  apply (proj2 trailing_separator_insensitive compare shadowingRouter "/a/b").
  - discriminate.
  - apply (no_trailing_separator "/a/b" 3 "b"%char); [reflexivity|reflexivity|discriminate].
Defined.

(** A second trailing separator is not stripped: the results may differ. *)
Example double_trailing_separator :
  findRoute compare shadowingRouter "/a/b/" = Ok (Some 0)
  ∧ findRoute compare shadowingRouter "/a/b//" = Ok None.
Proof. split; reflexivity. Qed.

(** ** Comparing a route with a tokenized path *)

Lemma comparePositions_spec (segs : list segment) (vals : list string) :
  comparePositions segs vals = true ↔
    length segs ≤ length vals
    ∧ ∀ i seg s, segs !! i = Some seg → vals !! i = Some s →
                 segmentMatches seg s = true.
Proof.
  revert vals. induction segs as [|seg segs IH]; intros vals; simpl.
  - split; [|done]. intros _. split; [lia|]. intros i seg s H. done.
  - destruct vals as [|v vals]; simpl.
    + split; [done|]. intros [H _]. lia.
    + rewrite andb_true_iff, IH. split.
      * intros (Hm & Hl & Hall). split; [lia|].
        intros [|i] seg' s; simpl.
        -- by intros [= <-] [= <-].
        -- apply Hall.
      * intros (Hl & Hall). split; [apply (Hall 0); done|].
        split; [lia|]. intros i seg' s. apply (Hall (S i)).
Qed.

Lemma segmentMatches_spec (seg : segment) (s : string) :
  segmentMatches seg s = true ↔ if isVariable seg then s ≠ "" else value seg = s.
Proof.
  unfold segmentMatches. destruct (isVariable seg).
  - rewrite negb_true_iff. split.
    + intros H ->. by rewrite String.eqb_refl in H.
    + intros H. by apply String.eqb_neq.
  - apply String.eqb_eq.
Qed.

(** C2: the route matches a tokenized path exactly when the segment counts
    are equal and at every position a variable segment of the route meets a
    non-empty value and a literal one meets an equal string; a path with
    another number of segments does not match. The count and the values are
    those the loop of [findRoute] emits for the path. *)
Theorem compare_matches (rt : route) (pd : pathDetails) :
  (count pd ≤ length (segments pd) →
   (compare rt pd = true ↔
      length (rsegments rt) = count pd
      ∧ ∀ i seg s,
          rsegments rt !! i = Some seg → segments pd !! i = Some s →
          if isVariable seg then s ≠ "" else value seg = s))
  ∧ (length (rsegments rt) ≠ count pd → compare rt pd = false)
  ∧ (∀ path, tokenize path = Ok pd →
       count pd = segmentCount path
       ∧ count pd ≤ length (segments pd)
       ∧ take (count pd) (segments pd) = emitted (String.length path) path).
Proof.
  unfold compare. split; [|split].
  - intros Hle.
    rewrite andb_true_iff, Nat.eqb_eq, comparePositions_spec. split.
    + intros (Hl & _ & Hall). split; [done|].
      intros i seg s Hseg Hs. apply segmentMatches_spec. by apply (Hall i).
    + intros (Hl & Hall). split; [done|]. split; [lia|].
      intros i seg s Hseg Hs. apply segmentMatches_spec. by apply (Hall i).
  - intros Hne. apply andb_false_iff. left. by apply Nat.eqb_neq.
  - intros path Hpd. destruct (tokenize_Ok _ _ Hpd) as (Hc & Hle & Hlen & Ht).
    split; [done|]. split; [lia|done].
Qed.

Lemma compare_matches_witness :
  compare
    {| originalPattern := "/users/:id";
       rsegments := [ {| value := "/:id"; isVariable := true; ok := true |};
                      {| value := "/users"; isVariable := false; ok := true |} ];
       hasVariables := true; methods := []; handler := None |}
    {| count := 2; segments := ["/42"; "/users"] ++ replicate 48 "" |} = true ↔
  2 = 2
  ∧ ∀ i seg s,
      [ {| value := "/:id"; isVariable := true; ok := true |};
        {| value := "/users"; isVariable := false; ok := true |} ] !! i = Some seg →
      (["/42"; "/users"] ++ replicate 48 "") !! i = Some s →
      if isVariable seg then s ≠ "" else value seg = s.
Proof.
  apply (proj1 (compare_matches
           {| originalPattern := "/users/:id";
              rsegments := [ {| value := "/:id"; isVariable := true; ok := true |};
                             {| value := "/users"; isVariable := false; ok := true |} ];
              hasVariables := true; methods := []; handler := None |}
           {| count := 2; segments := ["/42"; "/users"] ++ replicate 48 "" |})).
  simpl. lia.
Defined.

Example compare_scenario :
  ∃ rt pd, heap usersRouter !! 1 = Some rt ∧ tokenize "/users/42" = Ok pd
         ∧ compare rt pd = true
         ∧ ∃ pd', tokenize "/users/42/posts" = Ok pd' ∧ compare rt pd' = false.
Proof.
  eexists _, _. split; [reflexivity|]. split; [reflexivity|].
  split; [reflexivity|]. eexists. split; reflexivity.
Qed.

(** ** Dispatch *)

Lemma allowedMethod_spec (ms : list Method) (m : string) :
  allowedMethod ms m = true ↔ m ∈ ms.
Proof.
  induction ms as [|x ms IH]; simpl.
  - split; [done|]. intros H. by apply not_elem_of_nil in H.
  - destruct (String.eqb x m) eqn:Hx; simpl.
    + apply String.eqb_eq in Hx as ->. split; [left|done].
    + apply String.eqb_neq in Hx. rewrite IH. split; [by right|].
      intros H. apply elem_of_cons in H as [->|H]; done.
Qed.

Lemma invoke_Ok (c c' : call) :
  invoke c = Ok c' ↔ c' = c ∧ ∃ h, calleeOf c = Some h.
Proof.
  unfold invoke. destruct (calleeOf c) as [h|]; split.
  - intros [= <-]. eauto.
  - by intros [-> _].
  - discriminate.
  - by intros [_ [h [=]]].
Qed.

Lemma invoke_Panic (c : call) (e : panic) :
  invoke c = Panic e ↔ e = NilDereference ∧ calleeOf c = None.
Proof.
  unfold invoke. destruct (calleeOf c) as [h|]; split.
  - discriminate.
  - by intros [_ [=]].
  - by intros [= <-].
  - by intros [-> _].
Qed.

(** C4 (amended): [ServeHTTP] calls the not found handler exactly when
    [findRoute] returns no route and that handler is in the table, the method
    not allowed handler exactly when a route is found whose methods do not
    contain the method of the request and that handler is in the table, and
    the handler of the route exactly when a route is found whose methods
    contain it and whose handler is not nil; it never makes another call.
    It panics, calling nothing, exactly when [findRoute] panics or the
    function to call is nil. In a router whose routes all have a handler and
    whose table has both fallback handlers, it makes one of the three calls
    whenever [findRoute] returns. *)
Theorem ServeHTTP_dispatch (cmp : route → pathDetails → bool) (r : HttpRouter)
    (req : Request) :
  (∀ h, ServeHTTP cmp r req = Ok (CallStatusCodeHandler StatusNotFound (Some h))
     ↔ findRoute cmp r (reqPath req) = Ok None
       ∧ httpStatusCodeHandlers r !! StatusNotFound = Some h)
  ∧ (∀ h, ServeHTTP cmp r req
          = Ok (CallStatusCodeHandler StatusMethodNotAllowed (Some h))
     ↔ ∃ q rt, findRoute cmp r (reqPath req) = Ok (Some q)
             ∧ heap r !! q = Some rt ∧ (reqMethod req ∉ methods rt)
             ∧ httpStatusCodeHandlers r !! StatusMethodNotAllowed = Some h)
  ∧ (∀ q h, ServeHTTP cmp r req = Ok (CallRouteHandler q (Some h))
     ↔ ∃ rt, findRoute cmp r (reqPath req) = Ok (Some q)
           ∧ heap r !! q = Some rt ∧ reqMethod req ∈ methods rt
           ∧ handler rt = Some h)
  ∧ (∀ c, ServeHTTP cmp r req = Ok c →
       (∃ h, c = CallStatusCodeHandler StatusNotFound (Some h))
       ∨ (∃ h, c = CallStatusCodeHandler StatusMethodNotAllowed (Some h))
       ∨ ∃ q h, c = CallRouteHandler q (Some h))
  ∧ (∀ e, ServeHTTP cmp r req = Panic e ↔
       findRoute cmp r (reqPath req) = Panic e
       ∨ (e = NilDereference
          ∧ ((findRoute cmp r (reqPath req) = Ok None
              ∧ httpStatusCodeHandlers r !! StatusNotFound = None)
             ∨ ∃ q, findRoute cmp r (reqPath req) = Ok (Some q)
                  ∧ (heap r !! q = None
                     ∨ ∃ rt, heap r !! q = Some rt
                           ∧ (((reqMethod req ∉ methods rt)
                               ∧ httpStatusCodeHandlers r !! StatusMethodNotAllowed
                                 = None)
                              ∨ (reqMethod req ∈ methods rt
                                 ∧ handler rt = None))))))
  ∧ (wf r → complete r → fallbacksDefined r →
     returns (findRoute cmp r (reqPath req)) →
     returns (ServeHTTP cmp r req)).
Proof.
  unfold ServeHTTP, invoke, deref, returns.
  destruct (findRoute cmp r (reqPath req)) as [[q|]|e0] eqn:Hf; simpl;
    [destruct (heap r !! q) as [rt|] eqn:Hq; simpl;
     [destruct (allowedMethod (methods rt) (reqMethod req)) eqn:Ha; simpl;
      [apply allowedMethod_spec in Ha; destruct (handler rt) as [h0|] eqn:Hh
      |assert (Hn : reqMethod req ∉ methods rt)
         by (intros Hin; apply allowedMethod_spec in Hin; congruence);
       destruct (httpStatusCodeHandlers r !! StatusMethodNotAllowed)
         as [h0|] eqn:Hh]
     |]
    |destruct (httpStatusCodeHandlers r !! StatusNotFound) as [h0|] eqn:Hh
    |];
    simpl; (split; [|split; [|split; [|split; [|split]]]]);
    try (split; dispatch_crush; fail); try (dispatch_crush; fail).
  - intros _ Hc _ _. by destruct (Hc q rt Hq) as [_ ?].
  - intros _ _ [_ [? ?]] _. congruence.
  - intros Hwf _ _ _. destruct (findRoute_points cmp r _ q Hwf Hf) as [rt Hrt].
    congruence.
  - intros _ _ [[? ?] _] _. congruence.
Qed.

Lemma wf_withHeap (r : HttpRouter) (h : list route) :
  wf r → length h = length (heap r) → wf (withHeap r h).
Proof. intros [Hs Hv] Hl. split; simpl; rewrite Hl; auto. Qed.

Lemma assign_length (h h' : list route) (p : ptr) (f : route → route) :
  assign h p f = Ok h' → length h' = length h.
Proof.
  unfold assign. destruct (h !! p); [|discriminate].
  intros [= <-]. apply length_insert.
Qed.

Lemma wf_HandleFunc (r r' : HttpRouter) (pattern : string) (ms : list Method)
    (hd : option HandlerFunc) (res : result unit) :
  wf r → HandleFunc r pattern ms hd = (res, r') → wf r'.
Proof.
  intros Hwf. unfold HandleFunc.
  destruct (addRoute r pattern) as [res1 r1] eqn:Ha.
  assert (Hwf1 : wf r1) by (by eapply wf_addRoute).
  destruct res1 as [[[q|] [err|]]|e]; try (by intros [= _ <-]).
  destruct (assign (heap r1) q (setMethods ms)) as [h2|e] eqn:H2;
    [|by intros [= _ <-]].
  assert (Hwf2 : wf (withHeap r1 h2)).
  { apply wf_withHeap; [done|]. by eapply assign_length. }
  destruct (Nat.eqb (length ms) 0); [by intros [= _ <-]|].
  destruct (assign (heap (withHeap r1 h2)) q (setHandler hd)) as [h3|e] eqn:H3;
    [|by intros [= _ <-]].
  assert (Hwf3 : wf (withHeap (withHeap r1 h2) h3)).
  { apply wf_withHeap; [done|]. by eapply assign_length. }
  destruct hd; by intros [= _ <-].
Qed.

Lemma wf_usersRouter : wf usersRouter.
Proof.
  unfold usersRouter.
  eapply wf_HandleFunc; [|apply surjective_pairing].
  eapply wf_HandleFunc; [|apply surjective_pairing].
  eapply wf_HandleFunc; [|apply surjective_pairing].
  apply wf_NewRouter.
Qed.

(** C4, as first stated, fails: on a path of 51 segments [findRoute] panics
    and [ServeHTTP] calls no handler. *)
Lemma ServeHTTP_no_call_on_long_path :
  ¬ returns (ServeHTTP compare usersRouter
               {| reqMethod := "GET"; reqPath := longPath |}).
Proof. intros [c Hc]. vm_compute in Hc. discriminate. Qed.

(** The concrete scenario: [/users] for GET, [/users/:id] for GET and
    [/users/:id/posts] for GET and POST. *)
Example dispatch_scenario :
  ServeHTTP compare usersRouter {| reqMethod := "GET"; reqPath := "/users" |}
    = Ok (CallRouteHandler 0 (Some 1))
  ∧ ServeHTTP compare usersRouter {| reqMethod := "GET"; reqPath := "/users/42" |}
    = Ok (CallRouteHandler 1 (Some 2))
  ∧ ServeHTTP compare usersRouter
      {| reqMethod := "GET"; reqPath := "/users/42/posts" |}
    = Ok (CallRouteHandler 2 (Some 3))
  ∧ ServeHTTP compare usersRouter
      {| reqMethod := "POST"; reqPath := "/users/42/posts" |}
    = Ok (CallRouteHandler 2 (Some 3))
  ∧ ServeHTTP compare usersRouter
      {| reqMethod := "DELETE"; reqPath := "/users/42/posts" |}
    = Ok (CallStatusCodeHandler StatusMethodNotAllowed (Some default405))
  ∧ ServeHTTP compare usersRouter
      {| reqMethod := "GET"; reqPath := "/users/42/comments" |}
    = Ok (CallStatusCodeHandler StatusNotFound (Some default404)).
Proof. repeat split; reflexivity. Qed.

(** ** Validation of patterns *)

(** [newRoute] never returns an error: a pattern either compiles or makes it
    panic. *)
Lemma newRoute_no_error (pattern : string) (rt : route) (err : error) :
  newRoute pattern = Ok (rt, err) → err = None.
Proof. intros H. by destruct (newRoute_Ok _ _ _ H) as [-> _]. Qed.

(** C5: the pattern [abc], which does not begin with the separator, is
    compiled without an error and registered as a static route, where
    [fullPathCheck] reports an error for it; the empty pattern makes
    [newRoute] panic on an index out of range instead of returning an
    error. *)
Theorem malformed_pattern_is_registered :
  newRoute "abc"
    = Ok ({| originalPattern := "abc"; rsegments := []; hasVariables := false;
             methods := []; handler := None |}, None)
  ∧ (addRoute NewRouter "abc").1 = Ok (Some 0, None)
  ∧ staticRoutes (addRoute NewRouter "abc").2 !! "abc" = Some 0
  ∧ (HandleFunc NewRouter "abc" [GET] (Some 1)).1 = Ok ()
  ∧ findRoute compare (HandleFunc NewRouter "abc" [GET] (Some 1)).2 "abc"
    = Ok (Some 0)
  ∧ fullPathCheck "abc" = Ok ("abc", Some mustBeginWithSeparator)
  ∧ newRoute "" = Panic IndexOutOfRange
  ∧ fullPathCheck "" = Ok ("", Some "path supplied cannot be an empty string").
Proof. repeat split; reflexivity. Qed.

(** ** Registration is not atomic *)

Lemma assign_last (h : list route) (rt : route) (f : route → route) :
  assign (h ++ [rt]) (length h) f = Ok (h ++ [f rt]).
Proof.
  unfold assign. rewrite lookup_app_r, Nat.sub_diag by lia. simpl.
  by rewrite insert_app_r_alt, Nat.sub_diag by lia.
Qed.


(** The route left behind by a failed registration is found by later
    requests: without methods it answers method not allowed, and without a
    handler the call through the nil function panics. *)
Example failed_registration_is_served :
  ServeHTTP compare (HandleFunc NewRouter "/a" [] (Some 1)).2
    {| reqMethod := "GET"; reqPath := "/a" |}
  = Ok (CallStatusCodeHandler StatusMethodNotAllowed (Some default405))
  ∧ findRoute compare (HandleFunc NewRouter "/a" [GET] None).2 "/a" = Ok (Some 0)
  ∧ ServeHTTP compare (HandleFunc NewRouter "/a" [GET] None).2
      {| reqMethod := "GET"; reqPath := "/a" |}
    = Panic NilDereference.
Proof. repeat split; reflexivity. Qed.

(** * Further properties of the code *)

(** ** Strings as lists of bytes *)

Lemma list_ascii_substring (s : string) (i m : nat) :
  list_ascii_of_string (String.substring i m s)
  = take m (drop i (list_ascii_of_string s)).
Proof.
  revert i m. induction s as [|a s IH]; simpl; intros i m.
  - destruct i, m; simpl; done.
  - destruct i as [|i]; simpl.
    + destruct m as [|m]; simpl; [done|]. rewrite IH. by rewrite drop_0.
    + apply IH.
Qed.

Lemma list_ascii_slice_from (s : string) (i : nat) :
  list_ascii_of_string (slice_from s i) = drop i (list_ascii_of_string s).
Proof.
  unfold slice_from. rewrite list_ascii_substring.
  apply take_ge. rewrite length_drop, length_list_ascii. lia.
Qed.

Lemma list_ascii_append (s t : string) :
  list_ascii_of_string (s ++ t)%string
  = list_ascii_of_string s ++ list_ascii_of_string t.
Proof.
  induction s as [|a s IH]; [done|].
  change (list_ascii_of_string (String a (s ++ t)%string)
          = a :: (list_ascii_of_string s ++ list_ascii_of_string t)).
  simpl. by rewrite IH.
Qed.

Lemma list_ascii_inj (s t : string) :
  list_ascii_of_string s = list_ascii_of_string t → s = t.
Proof.
  intros H. rewrite <- (string_of_list_ascii_of_string s),
    <- (string_of_list_ascii_of_string t). by rewrite H.
Qed.

Lemma slice_to_slice_from (s : string) (i : nat) :
  (slice_to s i ++ slice_from s i)%string = s.
Proof.
  apply list_ascii_inj.
  rewrite list_ascii_append, list_ascii_slice_to, list_ascii_slice_from.
  apply take_drop.
Qed.

Lemma get_slice_to (s : string) (i j : nat) :
  String.get j (slice_to s i) = if decide (j < i) then String.get j s else None.
Proof.
  rewrite !get_lookup, list_ascii_slice_to.
  destruct (decide (j < i)).
  - by apply lookup_take_lt.
  - apply lookup_take_ge. lia.
Qed.

Lemma get_slice_from (s : string) (i j : nat) :
  String.get j (slice_from s i) = String.get (i + j) s.
Proof.
  rewrite !get_lookup, list_ascii_slice_from. apply lookup_drop.
Qed.

Lemma length_slice_from (s : string) (i : nat) :
  String.length (slice_from s i) = String.length s - i.
Proof.
  by rewrite <- !length_list_ascii, list_ascii_slice_from, length_drop.
Qed.

Lemma get_length_None (s : string) (i : nat) :
  String.get i s = None ↔ String.length s ≤ i.
Proof.
  rewrite get_lookup, <- length_list_ascii. apply lookup_ge_None.
Qed.

(** ** Normalizing and checking a path *)

Lemma processPath_Ok (s p : string) :
  processPath s = Ok p →
  s ≠ "" ∧ p ≠ ""
  ∧ String.get 0 p = String.get 0 s
  ∧ ((s = (p ++ "/")%string) ∨ (p = s ∧ (s = "/" ∨ ∀ q, s ≠ (q ++ "/")%string))).
Proof.
  unfold processPath. destruct (String.length s) as [|n] eqn:Hl; [discriminate|].
  assert (Hs : s ≠ "") by (by intros ->).
  destruct (get_is_Some s n) as [c Hc]; [lia|].
  unfold byte_at. rewrite Hc. simpl rbind.
  destruct (is_byte c 47) eqn:Hb; simpl.
  - apply is_separator in Hb. subst c.
    destruct n as [|n]; simpl.
    + intros [= <-]. split; [done|]. split; [done|]. split; [done|].
      right. split; [done|]. left.
      destruct s as [|a [|b s]]; try discriminate. simpl in Hc. by injection Hc as ->.
    + intros [= <-]. split; [done|]. split.
      { intros He. assert (H0 : String.length (slice_to s (S n)) = 0) by (by rewrite He).
        rewrite length_slice_to in H0 by lia. lia. }
      split; [rewrite get_slice_to; by rewrite decide_True by lia|].
      left. by apply string_last.
  - intros [= <-]. split; [done|]. split; [done|]. split; [done|].
    right. split; [done|]. right.
    apply (no_trailing_separator s n c Hl Hc).
    intros ->. by rewrite (proj2 (is_separator "/"%char)) in Hb.
Qed.

Lemma processPath_Panic (s : string) (e : panic) :
  processPath s = Panic e → e = IndexOutOfRange ∧ s = "".
Proof.
  unfold processPath. destruct (String.length s) as [|n] eqn:Hl.
  - intros [= <-]. split; [done|]. by destruct s.
  - destruct (get_is_Some s n) as [c Hc]; [lia|].
    unfold byte_at. rewrite Hc. simpl rbind.
    by destruct (is_byte c 47 && Nat.ltb 1 (S n)).
Qed.

(** X1: [processPath] panics exactly on the empty string; otherwise it
    returns a non-empty string beginning like its argument: the argument
    without its last byte when that byte is a separator and is not the whole
    argument, and the argument itself otherwise. *)
Theorem processPath_strips_one (s : string) :
  (processPath s = Panic IndexOutOfRange ↔ s = "")
  ∧ (∀ p, processPath s = Ok p ↔
       (p ≠ "" ∧ s = (p ++ "/")%string)
       ∨ (p = s ∧ s ≠ "" ∧ (s = "/" ∨ ∀ q, s ≠ (q ++ "/")%string)))
  ∧ (∀ p, processPath s = Ok p →
       p ≠ "" ∧ String.get 0 p = String.get 0 s).
Proof.
  split; [|split].
  - split; [|by intros ->].
    intros H. by destruct (processPath_Panic _ _ H).
  - intros p. split.
    + intros H. destruct (processPath_Ok _ _ H) as (Hs & Hp & _ & [Hc|[-> Hc]]).
      * by left.
      * right. done.
    + intros [[Hp ->]|(-> & Hs & [->|Hq])].
      * by apply processPath_trailing.
      * reflexivity.
      * by apply processPath_no_trailing.
  - intros p H. destruct (processPath_Ok _ _ H) as (_ & Hp & Hg & _). done.
Qed.

Lemma processPath_strips_one_witness :
  "/users" ≠ "" ∧ String.get 0 "/users" = String.get 0 "/users/".
Proof.
  apply (proj2 (proj2 (processPath_strips_one "/users/")) "/users").
  reflexivity.
Defined.

(** X2: [fullPathCheck] never panics. It reports an error exactly when the
    path does not begin with a separator (the empty path included) and then
    returns the path as it is; otherwise it returns what [processPath]
    returns, which begins with a separator. *)
Theorem fullPathCheck_validates (path : string) :
  ∃ p e, fullPathCheck path = Ok (p, e)
    ∧ (e = None ↔ String.get 0 path = Some "/"%char)
    ∧ (e ≠ None → p = path)
    ∧ (e = None →
       processPath path = Ok p ∧ String.get 0 p = Some "/"%char).
Proof.
  unfold fullPathCheck. destruct (String.eqb path "") eqn:He.
  - apply String.eqb_eq in He as ->. eexists _, _. split; [reflexivity|].
    split; [split; discriminate|]. split; [done|discriminate].
  - apply String.eqb_neq in He.
    destruct (get_is_Some path 0) as [c Hc]; [destruct path; [done|simpl; lia]|].
    unfold byte_at. rewrite Hc. simpl rbind.
    destruct (is_byte c 47) eqn:Hb; simpl.
    + apply is_separator in Hb. subst c.
      change (removeTrailingSlash path) with (processPath path).
      destruct (processPath path) as [p|e] eqn:Hp.
      * simpl. eexists _, _. split; [reflexivity|].
        split; [done|]. split; [done|]. intros _. split; [done|].
        destruct (processPath_Ok _ _ Hp) as (_ & _ & Hg & _). by rewrite Hg.
      * by destruct (processPath_Panic _ _ Hp).
    + eexists _, _. split; [reflexivity|].
      split; [|split; [done|discriminate]].
      split; [discriminate|]. intros [= ->].
      by rewrite (proj2 (is_separator "/"%char)) in Hb.
Qed.

Lemma fullPathCheck_validates_witness :
  ∃ p e, fullPathCheck "/a/b/" = Ok (p, e)
    ∧ (e = None ↔ String.get 0 "/a/b/" = Some "/"%char)
    ∧ (e ≠ None → p = "/a/b/")
    ∧ (e = None →
       processPath "/a/b/" = Ok p ∧ String.get 0 p = Some "/"%char).
Proof. apply (fullPathCheck_validates "/a/b/"). Defined.

(** ** What the tokenizers emit *)

Lemma joinStrings_snoc (l : list string) (s : string) :
  joinStrings (l ++ [s]) = (joinStrings l ++ s)%string.
Proof.
  apply list_ascii_inj. induction l as [|x l IH].
  - unfold joinStrings. simpl fold_right.
    rewrite !list_ascii_append. simpl. by rewrite app_nil_r.
  - change (joinStrings ((x :: l) ++ [s])) with (x ++ joinStrings (l ++ [s]))%string.
    change (joinStrings (x :: l)) with (x ++ joinStrings l)%string.
    rewrite !list_ascii_append, IH, list_ascii_append. by rewrite app_assoc.
Qed.

Lemma no_separator_from (l : list ascii) (n j : nat) (c : ascii) :
  filter (λ c, is_byte c 47 = true) (drop n l) = [] →
  n ≤ j → l !! j = Some c → is_byte c 47 = false.
Proof.
  intros Hf Hj Hc. destruct (is_byte c 47) eqn:Hb; [exfalso|done].
  assert (Hin : c ∈ filter (λ c, is_byte c 47 = true) (drop n l)).
  { apply list_elem_of_filter. split; [done|].
    apply list_elem_of_lookup. exists (j - n). rewrite lookup_drop.
    by replace (n + (j - n)) with j by lia. }
  rewrite Hf in Hin. by apply not_elem_of_nil in Hin.
Qed.

Lemma no_separator_step (l : list ascii) (i : nat) (c : ascii) :
  l !! i = Some c → is_byte c 47 = false →
  filter (λ c, is_byte c 47 = true) (drop (S i) l) = [] →
  filter (λ c, is_byte c 47 = true) (drop i l) = [].
Proof.
  intros Hc Hb Hf. rewrite (drop_S _ _ _ Hc).
  rewrite filter_cons_False by (by rewrite Hb). done.
Qed.

Lemma no_separator_take (l : list ascii) (i : nat) :
  filter (λ c, is_byte c 47 = true) (drop i (take i l)) = [].
Proof. by rewrite drop_ge by (rewrite length_take; lia). Qed.

(** Every emitted string begins with its only separator. *)
Lemma emitted_shape (n : nat) (path s : string) :
  n ≤ String.length path →
  filter (λ c, is_byte c 47 = true) (drop n (list_ascii_of_string path)) = [] →
  s ∈ emitted n path →
  String.get 0 s = Some "/"%char ∧ segmentCount s = 1.
Proof.
  revert path. induction n as [|i IH]; intros path Hn Hinv; simpl.
  - intros H. by apply not_elem_of_nil in H.
  - destruct (get_is_Some path i) as [c Hc]; [lia|]. rewrite Hc.
    assert (Hl : list_ascii_of_string path !! i = Some c) by (by rewrite <- get_lookup).
    destruct (is_byte c 47) eqn:Hb.
    + intros H. apply elem_of_cons in H as [->|H].
      * split.
        -- rewrite get_slice_from, Nat.add_0_r, Hc.
           by apply is_separator in Hb as ->.
        -- unfold segmentCount.
           rewrite list_ascii_slice_from, (drop_S _ _ _ Hl).
           rewrite filter_cons_True by done. simpl. by rewrite Hinv.
      * apply (IH (slice_to path i)); [rewrite length_slice_to; lia| |done].
        rewrite list_ascii_slice_to. apply no_separator_take.
    + apply IH; [lia|]. by apply no_separator_step with c.
Qed.

(** The emitted strings, from the last to the first, make up the path from
    its first separator on. *)
Lemma emitted_join (n : nat) (path : string) :
  n ≤ String.length path →
  filter (λ c, is_byte c 47 = true) (drop n (list_ascii_of_string path)) = [] →
  ∃ pre, segmentCount pre = 0
       ∧ path = (pre ++ joinStrings (rev (emitted n path)))%string.
Proof.
  revert path. induction n as [|i IH]; intros path Hn Hinv; simpl.
  - exists path. split; [unfold segmentCount; by rewrite <- (drop_0 (list_ascii_of_string path)), Hinv|].
    apply list_ascii_inj. rewrite list_ascii_append. simpl. by rewrite app_nil_r.
  - destruct (get_is_Some path i) as [c Hc]; [lia|]. rewrite Hc.
    assert (Hl : list_ascii_of_string path !! i = Some c) by (by rewrite <- get_lookup).
    destruct (is_byte c 47) eqn:Hb.
    + destruct (IH (slice_to path i)) as (pre & Hpre & Heq).
      { rewrite length_slice_to; lia. }
      { rewrite list_ascii_slice_to. apply no_separator_take. }
      exists pre. split; [done|]. simpl rev. rewrite joinStrings_snoc.
      apply list_ascii_inj. rewrite !list_ascii_append.
      rewrite app_assoc, <- list_ascii_append, <- Heq.
      by rewrite <- list_ascii_append, slice_to_slice_from.
    + apply IH; [lia|]. by apply no_separator_step with c.
Qed.

Lemma newSegments_Forall2 (l : list string) (segs : list segment) :
  newSegments l = Ok segs → Forall2 (λ s seg, newSegment s = Ok seg) l segs.
Proof.
  revert segs. induction l as [|s l IH]; simpl; intros segs H.
  - injection H as <-. constructor.
  - apply rbind_Ok in H as (seg & Hseg & H).
    apply rbind_Ok in H as (rest & Hrest & H).
    injection H as <-. constructor; [done|]. by apply IH.
Qed.

Lemma newSegments_result (l : list string) :
  (∃ s, s ∈ l ∧ String.length s ≤ 1) ∧ newSegments l = Panic IndexOutOfRange
  ∨ (∀ s, s ∈ l → 2 ≤ String.length s) ∧ ∃ segs, newSegments l = Ok segs.
Proof.
  induction l as [|s l IH]; simpl.
  - right. split; [|eauto]. intros s H. by apply not_elem_of_nil in H.
  - destruct (decide (String.length s ≤ 1)) as [Hs|Hs].
    + left. split; [exists s; split; [left|done]|].
      by rewrite newSegment_short.
    + destruct (newSegment_long s) as [seg Hseg]; [lia|]. rewrite Hseg. simpl.
      destruct IH as [[(t & Ht & Hl) Hp]|[Hall (segs & Hsegs)]].
      * left. split; [exists t; split; [by right|done]|]. by rewrite Hp.
      * right. split.
        -- intros t Ht. apply elem_of_cons in Ht as [->|Ht]; [lia|by apply Hall].
        -- rewrite Hsegs. simpl. eauto.
Qed.

(** X3: [splitPath] returns one segment for each separator of the path; the
    value of each segment begins with its only separator and has at least one
    more byte, and the segment is variable exactly when that byte is the
    marker. *)
Theorem splitPath_segments (path : string) (segs : list segment) :
  splitPath path = Ok segs →
  length segs = segmentCount path
  ∧ ∀ seg, seg ∈ segs →
      String.get 0 (value seg) = Some "/"%char
      ∧ segmentCount (value seg) = 1
      ∧ 2 ≤ String.length (value seg)
      ∧ ok seg = true
      ∧ (isVariable seg = true ↔ String.get 1 (value seg) = Some ":"%char).
Proof.
  rewrite splitPath_spec. intros H. split.
  - rewrite <- segmentCount_emitted, <- (newSegments_Ok _ _ H).
    by rewrite List.length_map.
  - intros seg Hseg.
    destruct (newSegments_result (emitted (String.length path) path))
      as [[_ Hp]|[Hlong _]]; [congruence|].
    apply newSegments_Forall2 in H.
    apply list_elem_of_lookup in Hseg as [k Hk].
    destruct (Forall2_lookup_r _ _ _ _ _ H Hk) as (s & Hs & Hnew).
    destruct (newSegment_Ok _ _ Hnew) as (Hv & Hok & c & Hc & Hvar).
    assert (Hin : s ∈ emitted (String.length path) path)
      by (apply list_elem_of_lookup; eauto).
    destruct (emitted_shape (String.length path) path s) as [Hg Hcount];
      [lia|by rewrite drop_ge by (rewrite length_list_ascii; lia)|done|].
    rewrite Hv. split; [done|]. split; [done|]. split; [by apply Hlong|].
    split; [done|]. rewrite Hvar, Hc, is_marker.
    split; [by intros ->|by intros [= ->]].
Qed.

Lemma splitPath_segments_witness :
  length [ {| value := "/:id"; isVariable := true; ok := true |};
           {| value := "/users"; isVariable := false; ok := true |} ]
  = segmentCount "/users/:id"
  ∧ ∀ seg, seg ∈ [ {| value := "/:id"; isVariable := true; ok := true |};
                   {| value := "/users"; isVariable := false; ok := true |} ] →
      String.get 0 (value seg) = Some "/"%char
      ∧ segmentCount (value seg) = 1
      ∧ 2 ≤ String.length (value seg)
      ∧ ok seg = true
      ∧ (isVariable seg = true ↔ String.get 1 (value seg) = Some ":"%char).
Proof. apply (splitPath_segments "/users/:id"). reflexivity. Defined.

(** X4: the values of the segments [splitPath] returns, read from the last
    to the first, make up the path without what precedes its first separator;
    for a path that begins with a separator they make up the path. The same
    holds of the strings the loop of [findRoute] leaves in the buffer. *)
Theorem splitPath_round_trip (path : string) :
  (∀ segs, splitPath path = Ok segs →
     (∃ pre, segmentCount pre = 0
           ∧ path = (pre ++ joinStrings (rev (map value segs)))%string)
     ∧ (String.get 0 path = Some "/"%char →
        joinStrings (rev (map value segs)) = path))
  ∧ (∀ pd, tokenize path = Ok pd →
       String.get 0 path = Some "/"%char →
       joinStrings (rev (take (count pd) (segments pd))) = path).
Proof.
  destruct (emitted_join (String.length path) path) as (pre & Hpre & Heq);
    [lia|by rewrite drop_ge by (rewrite length_list_ascii; lia)|].
  assert (Hlead : String.get 0 path = Some "/"%char →
                  joinStrings (rev (emitted (String.length path) path)) = path).
  { intros Hg. destruct pre as [|a pre].
    - symmetry. exact Heq.
    - exfalso. rewrite Heq in Hg. injection Hg as ->.
      unfold segmentCount in Hpre.
      change (list_ascii_of_string (String "/" pre))
        with ("/"%char :: list_ascii_of_string pre) in Hpre.
      rewrite filter_cons_True in Hpre by done. discriminate. }
  split.
  - intros segs H. rewrite splitPath_spec in H.
    rewrite (newSegments_Ok _ _ H). split; [eauto|done].
  - intros pd Hpd Hg. destruct (tokenize_Ok _ _ Hpd) as (_ & _ & _ & ->). auto.
Qed.

Lemma splitPath_round_trip_witness :
  (∃ pre, segmentCount pre = 0
        ∧ "v1/users/:id"
          = (pre ++ joinStrings (rev (map value
               [ {| value := "/:id"; isVariable := true; ok := true |};
                 {| value := "/users"; isVariable := false; ok := true |} ])))%string)
  ∧ (String.get 0 "v1/users/:id" = Some "/"%char →
     joinStrings (rev (map value
        [ {| value := "/:id"; isVariable := true; ok := true |};
          {| value := "/users"; isVariable := false; ok := true |} ]))
     = "v1/users/:id").
Proof.
  apply (proj1 (splitPath_round_trip "v1/users/:id")). reflexivity.
Defined.

(** ** When compiling a pattern panics, and when the route is variable *)

Lemma emitted_bare (n : nat) (path : string) :
  n ≤ String.length path →
  filter (λ c, is_byte c 47 = true) (drop n (list_ascii_of_string path)) = [] →
  (∃ s, s ∈ emitted n path ∧ String.length s ≤ 1)
  ↔ ∃ i, i < n ∧ bareSeparator path i.
Proof.
  revert path. induction n as [|i IH]; intros path Hn Hinv; simpl.
  - split.
    + intros (s & H & _). by apply not_elem_of_nil in H.
    + intros (i & Hi & _). lia.
  - destruct (get_is_Some path i) as [c Hc]; [lia|]. rewrite Hc.
    assert (Hl : list_ascii_of_string path !! i = Some c) by (by rewrite <- get_lookup).
    destruct (is_byte c 47) eqn:Hb.
    + assert (Hc' := Hc). apply is_separator in Hb. subst c.
      assert (Hnext : ∀ i', i' < i →
                bareSeparator (slice_to path i) i' ↔ bareSeparator path i').
      { intros i' Hi'. unfold bareSeparator. rewrite !get_slice_to.
        rewrite decide_True by lia.
        destruct (decide (S i' < i)) as [Hlt|Hge]; [done|].
        assert (S i' = i) as <- by lia. rewrite Hc. split.
        - intros [H _]. split; [done|by right].
        - intros [H _]. split; [done|by left]. }
      assert (Hhere : String.length (slice_from path i) ≤ 1 ↔ bareSeparator path i).
      { rewrite length_slice_from. unfold bareSeparator. split.
        - intros Hle. split; [done|]. left. apply get_length_None. lia.
        - intros [_ [Hnone|Hsep]].
          + apply get_length_None in Hnone. lia.
          + rewrite get_lookup in Hsep.
            discriminate
              (no_separator_from _ (S i) (S i) "/"%char Hinv (le_n _) Hsep). }
      split.
      * intros (s & Hs & Hle). apply elem_of_cons in Hs as [->|Hs].
        -- exists i. split; [lia|]. by apply Hhere.
        -- destruct (proj1 (IH (slice_to path i)
                     ltac:(rewrite length_slice_to; lia)
                     ltac:(rewrite list_ascii_slice_to; apply no_separator_take)))
             as (i' & Hi' & Hbare); [eauto|].
           exists i'. split; [lia|]. by apply Hnext.
      * intros (i' & Hi' & Hbare).
        destruct (decide (i' = i)) as [->|Hne].
        -- exists (slice_from path i). split; [left|]. by apply Hhere.
        -- destruct (proj2 (IH (slice_to path i)
                     ltac:(rewrite length_slice_to; lia)
                     ltac:(rewrite list_ascii_slice_to; apply no_separator_take)))
             as (s & Hs & Hle).
           { exists i'. split; [lia|]. apply Hnext; [lia|done]. }
           exists s. split; [by right|done].
    + rewrite IH by (lia || by apply no_separator_step with c). split.
      * intros (i' & Hi' & Hbare). exists i'. split; [lia|done].
      * intros (i' & Hi' & Hbare). exists i'. split; [|done].
        destruct (decide (i' = i)) as [->|]; [|lia].
        destruct Hbare as [Hg _]. rewrite Hc in Hg. injection Hg as ->.
        by rewrite (proj2 (is_separator "/"%char)) in Hb.
Qed.

Lemma emitted_marker (n : nat) (path : string) :
  n ≤ String.length path →
  (∃ s, s ∈ emitted n path ∧ String.get 1 s = Some ":"%char)
  ↔ ∃ i, i < n ∧ variableMarker path i.
Proof.
  revert path. induction n as [|i IH]; intros path Hn; simpl.
  - split.
    + intros (s & H & _). by apply not_elem_of_nil in H.
    + intros (i & Hi & _). lia.
  - destruct (get_is_Some path i) as [c Hc]; [lia|]. rewrite Hc.
    destruct (is_byte c 47) eqn:Hb.
    + apply is_separator in Hb. subst c.
      assert (Hnext : ∀ i', i' < i →
                variableMarker (slice_to path i) i' ↔ variableMarker path i').
      { intros i' Hi'. unfold variableMarker. rewrite !get_slice_to.
        rewrite decide_True by lia.
        destruct (decide (S i' < i)) as [Hlt|Hge]; [done|].
        assert (S i' = i) as <- by lia. rewrite Hc.
        split; intros [_ H]; discriminate. }
      assert (Hhere : String.get 1 (slice_from path i) = Some ":"%char
                      ↔ variableMarker path i).
      { rewrite get_slice_from, Nat.add_1_r. unfold variableMarker. tauto. }
      assert (Hlen : i ≤ String.length (slice_to path i))
        by (rewrite length_slice_to; lia).
      split.
      * intros (s & Hs & Hg). apply elem_of_cons in Hs as [->|Hs].
        -- exists i. split; [lia|]. by apply Hhere.
        -- destruct (proj1 (IH (slice_to path i) Hlen)) as (i' & Hi' & Hm); [eauto|].
           exists i'. split; [lia|]. by apply Hnext.
      * intros (i' & Hi' & Hm).
        destruct (decide (i' = i)) as [->|Hne].
        -- exists (slice_from path i). split; [left|]. by apply Hhere.
        -- destruct (proj2 (IH (slice_to path i) Hlen)) as (s & Hs & Hg).
           { exists i'. split; [lia|]. apply Hnext; [lia|done]. }
           exists s. split; [by right|done].
    + rewrite IH by lia. split.
      * intros (i' & Hi' & Hm). exists i'. split; [lia|done].
      * intros (i' & Hi' & Hm). exists i'. split; [|done].
        destruct (decide (i' = i)) as [->|]; [|lia].
        destruct Hm as [Hg _]. rewrite Hc in Hg. injection Hg as ->.
        by rewrite (proj2 (is_separator "/"%char)) in Hb.
Qed.

Lemma anyVariable_spec (segs : list segment) :
  anyVariable segs = true ↔ ∃ seg, seg ∈ segs ∧ isVariable seg = true.
Proof.
  induction segs as [|seg segs IH]; simpl.
  - split; [done|]. intros (seg & H & _). by apply not_elem_of_nil in H.
  - destruct (isVariable seg) eqn:Hv; simpl.
    + split; [|done]. intros _. exists seg. split; [left|done].
    + rewrite IH. split.
      * intros (seg' & Hin & Hv'). exists seg'. split; [by right|done].
      * intros (seg' & Hin & Hv'). apply elem_of_cons in Hin as [->|Hin].
        -- congruence.
        -- eauto.
Qed.

Lemma bareSeparator_bound (path : string) (i : nat) :
  bareSeparator path i → i < String.length path.
Proof.
  intros [Hg _]. destruct (decide (i < String.length path)); [done|].
  rewrite get_None in Hg by lia. discriminate.
Qed.

Lemma variableMarker_bound (path : string) (i : nat) :
  variableMarker path i → i < String.length path.
Proof.
  intros [Hg _]. destruct (decide (i < String.length path)); [done|].
  rewrite get_None in Hg by lia. discriminate.
Qed.

Lemma splitPath_result (path : string) :
  (∃ i, bareSeparator path i) ∧ splitPath path = Panic IndexOutOfRange
  ∨ (¬ ∃ i, bareSeparator path i) ∧ ∃ segs, splitPath path = Ok segs.
Proof.
  rewrite splitPath_spec.
  assert (Hinv : filter (λ c, is_byte c 47 = true)
                   (drop (String.length path) (list_ascii_of_string path)) = [])
    by (by rewrite drop_ge by (rewrite length_list_ascii; lia)).
  pose proof (emitted_bare (String.length path) path (le_n _) Hinv) as Hbare.
  destruct (newSegments_result (emitted (String.length path) path))
    as [[Hshort Hp]|[Hlong Hsegs]].
  - left. split; [|done]. apply Hbare in Hshort as (i & _ & Hi). eauto.
  - right. split; [|done]. intros (i & Hi).
    destruct (proj2 Hbare) as (s & Hs & Hle).
    { exists i. split; [by apply bareSeparator_bound|done]. }
    apply Hlong in Hs. lia.
Qed.

(** X5: [splitPath], and [splitIntoSegments] with it, panics exactly when
    the path has a separator that is its last byte or is followed by another
    separator, and then on an index out of range; on every other path it
    returns. *)
Theorem splitPath_panics_on_bare_separator (path : string) :
  (splitPath path = Panic IndexOutOfRange ↔ ∃ i, bareSeparator path i)
  ∧ (returns (splitPath path) ↔ ¬ ∃ i, bareSeparator path i)
  ∧ (∀ e, splitPath path = Panic e ↔ splitIntoSegments path = Panic e)
  ∧ (∀ e, splitPath path = Panic e → e = IndexOutOfRange).
Proof.
  destruct (splitPath_result path) as [[Hb Hp]|[Hb (segs & Hs)]].
  - split; [done|]. split; [|split].
    + split; [|done]. intros [segs Hs]. congruence.
    + intros e. rewrite <- (splitIntoSegments_eq path). tauto.
    + intros e. rewrite Hp. by intros [= <-].
  - split; [split; [congruence|done]|]. split; [|split].
    + split; [done|]. intros _. by exists segs.
    + intros e. rewrite <- (splitIntoSegments_eq path). tauto.
    + intros e. congruence.
Qed.

Lemma splitPath_panics_on_bare_separator_witness :
  ∃ i, bareSeparator "/a//b" i.
Proof.
  apply (proj1 (proj1 (splitPath_panics_on_bare_separator "/a//b"))).
  reflexivity.
Defined.

Example splitPath_bare_examples :
  bareSeparator "/" 0 ∧ bareSeparator "/a//b" 2 ∧ bareSeparator "/a/" 2
  ∧ splitPath "/a//b" = Panic IndexOutOfRange
  ∧ splitPath "/a/" = Panic IndexOutOfRange.
Proof. unfold bareSeparator. simpl. repeat split; auto. Qed.

Lemma newRoute_hasVariables (pattern : string) (rt : route) (err : error) :
  newRoute pattern = Ok (rt, err) →
  hasVariables rt = true ↔ ∃ i, variableMarker (originalPattern rt) i.
Proof.
  intros H. destruct (newRoute_Ok _ _ _ H) as (-> & Hm & Hh & Hp & Hs & Hv).
    rewrite Hv, anyVariable_spec.
    rewrite splitPath_spec in Hs. apply newSegments_Forall2 in Hs.
    pose proof (emitted_marker (String.length (originalPattern rt))
                  (originalPattern rt) (le_n _)) as Hmark.
    split.
    + intros (seg & Hin & Hvar).
      apply list_elem_of_lookup in Hin as [k Hk].
      destruct (Forall2_lookup_r _ _ _ _ _ Hs Hk) as (s & Hsk & Hnew).
      destruct (newSegment_Ok _ _ Hnew) as (_ & _ & c & Hc & Hvc).
      destruct (proj1 Hmark) as (i & _ & Hmk); [|eauto].
      exists s. split; [apply list_elem_of_lookup; eauto|].
      rewrite Hc. f_equal. apply is_marker. congruence.
    + intros (i & Hmk).
      destruct (proj2 Hmark) as (s & Hin & Hg).
      { exists i. split; [by apply variableMarker_bound|done]. }
      apply list_elem_of_lookup in Hin as [k Hk].
      destruct (Forall2_lookup_l _ _ _ _ _ Hs Hk) as (seg & Hsk & Hnew).
      destruct (newSegment_Ok _ _ Hnew) as (_ & _ & c & Hc & Hvc).
      exists seg. split; [apply list_elem_of_lookup; eauto|].
      rewrite Hvc. apply is_marker. congruence.
Qed.

(** X6: [newRoute] returns exactly when the pattern is not empty and its
    normal form has no separator that is last or followed by another
    separator; otherwise it panics on an index out of range. The route it
    returns carries the normal form, no methods, no handler and a nil error,
    and has variables exactly when a separator of the normal form is followed
    by the marker. *)
Theorem newRoute_compiles (pattern : string) :
  (returns (newRoute pattern) ↔
     ∃ p, processPath pattern = Ok p ∧ ¬ ∃ i, bareSeparator p i)
  ∧ (∀ e, newRoute pattern = Panic e → e = IndexOutOfRange)
  ∧ (∀ rt err, newRoute pattern = Ok (rt, err) →
       err = None ∧ methods rt = [] ∧ handler rt = None
       ∧ processPath pattern = Ok (originalPattern rt)
       ∧ (hasVariables rt = true ↔ ∃ i, variableMarker (originalPattern rt) i)).
Proof.
  split; [|split].
  - unfold newRoute. split.
    + intros [[rt err] H]. apply rbind_Ok in H as (p & Hp & H).
      apply rbind_Ok in H as (segs & Hs & _). exists p. split; [done|].
      destruct (splitPath_result p) as [[_ Hpanic]|[Hb _]]; [congruence|done].
    + intros (p & Hp & Hb). rewrite Hp. simpl.
      destruct (splitPath_result p) as [[Hb' _]|[_ (segs & Hs)]]; [done|].
      rewrite Hs. simpl. by eexists.
  - intros e. unfold newRoute.
    destruct (processPath pattern) as [p|e'] eqn:Hp; simpl.
    + destruct (splitPath_result p) as [[_ Hpanic]|[_ (segs & Hs)]].
      * rewrite Hpanic. simpl. by intros [= <-].
      * rewrite Hs. discriminate.
    + intros [= <-]. by destruct (processPath_Panic _ _ Hp).
  - intros rt err H.
    destruct (newRoute_Ok _ _ _ H) as (-> & Hm & Hh & Hp & _).
    split; [done|]. split; [done|]. split; [done|]. split; [done|].
    by apply newRoute_hasVariables with pattern None.
Qed.

Lemma newRoute_compiles_witness :
  (None : error) = None
  ∧ methods {| originalPattern := "/users/:id";
               rsegments := [ {| value := "/:id"; isVariable := true; ok := true |};
                              {| value := "/users"; isVariable := false; ok := true |} ];
               hasVariables := true; methods := []; handler := None |} = []
  ∧ handler {| originalPattern := "/users/:id";
               rsegments := [ {| value := "/:id"; isVariable := true; ok := true |};
                              {| value := "/users"; isVariable := false; ok := true |} ];
               hasVariables := true; methods := []; handler := None |} = None
  ∧ processPath "/users/:id/" = Ok "/users/:id"
  ∧ (true = true ↔ ∃ i, variableMarker "/users/:id" i).
Proof.
  apply (proj2 (proj2 (newRoute_compiles "/users/:id/"))
           {| originalPattern := "/users/:id";
              rsegments := [ {| value := "/:id"; isVariable := true; ok := true |};
                             {| value := "/users"; isVariable := false; ok := true |} ];
              hasVariables := true; methods := []; handler := None |} None).
  reflexivity.
Defined.

(** ** What a registration does to the router *)

(** Whatever its outcome, [HandleFunc] leaves the router as it was or with
    one more route at the end of the store, compiled from the pattern and
    entered in the static table or at the end of the variable routes. *)
Lemma HandleFunc_effect (r r' : HttpRouter) (pattern : string) (ms : list Method)
    (hd : option HandlerFunc) (res : result unit) :
  HandleFunc r pattern ms hd = (res, r') →
  (r' = r ∧ ∃ e, res = Panic e ∧ newRoute pattern = Panic e)
  ∨ ∃ rt rt',
      newRoute pattern = Ok (rt, None)
      ∧ heap r' = heap r ++ [rt']
      ∧ originalPattern rt' = originalPattern rt
      ∧ rsegments rt' = rsegments rt
      ∧ hasVariables rt' = hasVariables rt
      ∧ httpStatusCodeHandlers r' = httpStatusCodeHandlers r
      ∧ (if hasVariables rt
         then staticRoutes r' = staticRoutes r
              ∧ variableRoutes r' = variableRoutes r ++ [length (heap r)]
         else staticRoutes r'
              = <[originalPattern rt := length (heap r)]> (staticRoutes r)
              ∧ variableRoutes r' = variableRoutes r)
      ∧ (res = Ok () ↔ ms ≠ [] ∧ hd ≠ None)
      ∧ (res = Ok () → methods rt' = ms ∧ handler rt' = hd).
Proof.
  unfold HandleFunc.
  destruct (addRoute r pattern) as [[res1|e] r1] eqn:Ha.
  - apply addRoute_Ok in Ha as (rt & Hn & -> & Hheap & Htab & Hreg).
    rewrite Hheap, assign_last. simpl heap. rewrite assign_last.
    intros H. right.
    destruct (Nat.eqb (length ms) 0) eqn:Hms.
    + injection H as <- <-. apply Nat.eqb_eq in Hms.
      exists rt, (setMethods ms rt). simpl.
      repeat split; try done.
      intros [Hne _]. by destruct ms.
    + apply Nat.eqb_neq in Hms.
      assert (Hne : ms ≠ []) by (by intros ->).
      exists rt, (setHandler hd (setMethods ms rt)).
      destruct hd as [h|]; injection H as <- <-; simpl;
        repeat split; try done; try (by destruct (hasVariables rt)).
      by intros [_ ?].
  - apply addRoute_Panic in Ha as [Hn ->].
    intros [= <- <-]. left. split; [done|]. eauto.
Qed.

(** X7: [HandleFunc] returns exactly when the pattern compiles, the methods
    are not empty and the handler is not nil. The router then has one more
    route, at a fresh address, with the methods and the handler given; the
    routes registered before and the status-code handlers are unchanged. *)
Theorem HandleFunc_returns (r : HttpRouter) (pattern : string)
    (ms : list Method) (hd : option HandlerFunc) :
  ((HandleFunc r pattern ms hd).1 = Ok () ↔
     returns (newRoute pattern) ∧ ms ≠ [] ∧ hd ≠ None)
  ∧ (∀ r', HandleFunc r pattern ms hd = (Ok (), r') →
       ∃ rt, newRoute pattern = Ok (rt, None)
           ∧ heap r' = heap r ++ [setHandler hd (setMethods ms rt)]
           ∧ (∀ q, q < length (heap r) → heap r' !! q = heap r !! q)
           ∧ httpStatusCodeHandlers r' = httpStatusCodeHandlers r
           ∧ (if hasVariables rt
              then staticRoutes r' = staticRoutes r
                   ∧ variableRoutes r' = variableRoutes r ++ [length (heap r)]
              else staticRoutes r'
                   = <[originalPattern rt := length (heap r)]> (staticRoutes r)
                   ∧ variableRoutes r' = variableRoutes r)).
Proof.
  split.
  - destruct (HandleFunc r pattern ms hd) as [res r'] eqn:H. simpl.
    apply HandleFunc_effect in H
      as [(_ & e & -> & Hn)|(rt & rt' & Hn & _ & _ & _ & _ & _ & _ & Hiff & _)].
    + split; [discriminate|]. intros [[a Ha] _]. congruence.
    + rewrite Hiff. split; [|tauto]. intros [? ?]. split; [by eexists|done].
  - intros r' H. assert (H' := H).
    apply HandleFunc_effect in H
      as [(_ & e & [=] & _)|(rt & rt' & Hn & Hheap & Ho & Hs & Hv & Htab & Hreg & _ & Hres)].
    destruct (Hres eq_refl) as [Hm Hh].
    destruct (newRoute_Ok _ _ _ Hn) as (_ & Hm0 & Hh0 & _).
    assert (Hrt : rt' = setHandler hd (setMethods ms rt)).
    { destruct rt'. simpl in *. subst. by destruct rt. }
    exists rt. rewrite Hheap, Hrt. repeat split; try done.
    intros q Hq. by rewrite lookup_app_l.
Qed.

Lemma HandleFunc_returns_witness :
  ∃ rt, newRoute "/users/:id" = Ok (rt, None)
      ∧ heap shadowingRouter
        = heap (HandleFunc NewRouter "/:a/:b" [GET] (Some 1)).2
          ++ [setHandler (Some 2) (setMethods [GET] rt)]
      ∧ (∀ q, q < length (heap (HandleFunc NewRouter "/:a/:b" [GET] (Some 1)).2) →
           heap shadowingRouter !! q
           = heap (HandleFunc NewRouter "/:a/:b" [GET] (Some 1)).2 !! q)
      ∧ httpStatusCodeHandlers shadowingRouter
        = httpStatusCodeHandlers (HandleFunc NewRouter "/:a/:b" [GET] (Some 1)).2
      ∧ (if hasVariables rt
         then staticRoutes shadowingRouter
              = staticRoutes (HandleFunc NewRouter "/:a/:b" [GET] (Some 1)).2
              ∧ variableRoutes shadowingRouter
                = variableRoutes (HandleFunc NewRouter "/:a/:b" [GET] (Some 1)).2
                  ++ [length (heap (HandleFunc NewRouter "/:a/:b" [GET] (Some 1)).2)]
         else staticRoutes shadowingRouter
              = <[originalPattern rt :=
                    length (heap (HandleFunc NewRouter "/:a/:b" [GET] (Some 1)).2)]>
                  (staticRoutes (HandleFunc NewRouter "/:a/:b" [GET] (Some 1)).2)
              ∧ variableRoutes shadowingRouter
                = variableRoutes (HandleFunc NewRouter "/:a/:b" [GET] (Some 1)).2).
Proof.
  apply (proj2 (HandleFunc_returns
                  (HandleFunc NewRouter "/:a/:b" [GET] (Some 1)).2
                  "/users/:id" [GET] (Some 2)) shadowingRouter).
  reflexivity.
Defined.

(** X8: after [HandleFunc] has returned for a pattern without a marker, a
    request whose path has the normal form of the pattern and whose method is
    one of those given is answered by the handler given, whatever was
    registered before, the same pattern included. *)
Theorem registered_static_route_is_served (cmp : route → pathDetails → bool)
    (r r' : HttpRouter) (pattern p : string) (ms : list Method) (h : HandlerFunc)
    (req : Request) :
  HandleFunc r pattern ms (Some h) = (Ok (), r') →
  processPath pattern = Ok p → (∀ i, ¬ variableMarker p i) →
  processPath (reqPath req) = Ok p → reqMethod req ∈ ms →
  ServeHTTP cmp r' req = Ok (CallRouteHandler (length (heap r)) (Some h)).
Proof.
  intros H Hp Hstatic Hpath Hm.
  apply HandleFunc_effect in H
    as [(_ & e & [=] & _)|(rt & rt' & Hn & Hheap & Ho & _ & Hv & _ & Hreg & _ & Hres)].
  destruct (Hres eq_refl) as [Hms Hh].
  destruct (newRoute_Ok _ _ _ Hn) as (_ & _ & _ & Hp' & _).
  assert (p = originalPattern rt) as -> by congruence.
  assert (Hv' : hasVariables rt = false).
  { destruct (hasVariables rt) eqn:E; [|done].
    apply (newRoute_hasVariables _ _ _ Hn) in E as [i Hi]. by destruct (Hstatic i). }
  rewrite Hv' in Hreg. destruct Hreg as [Hst _].
  unfold ServeHTTP.
  rewrite (findRoute_static cmp r' _ _ (length (heap r)) Hpath)
    by (rewrite Hst; apply lookup_insert_eq).
  simpl. unfold deref.
  rewrite Hheap, lookup_app_r, Nat.sub_diag by lia. simpl.
  rewrite Hms, (proj2 (allowedMethod_spec ms (reqMethod req)) Hm). simpl.
  by rewrite Hh.
Qed.

Lemma registered_static_route_is_served_witness :
  ServeHTTP compare
    (HandleFunc (HandleFunc NewRouter "/users" [GET] (Some 1)).2
       "/users/" [POST] (Some 7)).2
    {| reqMethod := "POST"; reqPath := "/users" |}
  = Ok (CallRouteHandler
          (length (heap (HandleFunc NewRouter "/users" [GET] (Some 1)).2))
          (Some 7)).
Proof.
  apply (registered_static_route_is_served compare
           (HandleFunc NewRouter "/users" [GET] (Some 1)).2
           (HandleFunc (HandleFunc NewRouter "/users" [GET] (Some 1)).2
              "/users/" [POST] (Some 7)).2
           "/users/" "/users" [POST] 7).
  - reflexivity.
  - reflexivity.
  - intros i [_ Hi]. do 7 (destruct i as [|i]; [discriminate|]). discriminate.
  - reflexivity.
  - left.
Defined.

(** ** Invariants of the registry *)

Lemma classified_NewRouter : classified NewRouter.
Proof.
  split; simpl.
  - intros k q H. by rewrite lookup_empty in H.
  - intros q H. by apply not_elem_of_nil in H.
Qed.

Lemma classified_HandleFunc (r r' : HttpRouter) (pattern : string)
    (ms : list Method) (hd : option HandlerFunc) (res : result unit) :
  classified r → HandleFunc r pattern ms hd = (res, r') → classified r'.
Proof.
  intros [Hs Hv] H.
  apply HandleFunc_effect in H
    as [(-> & _)|(rt & rt' & Hn & Hheap & Ho & _ & Hvar & _ & Hreg & _)];
    [by split|].
  assert (Hold : ∀ q rt0, heap r !! q = Some rt0 → heap r' !! q = Some rt0).
  { intros q rt0 Hq. rewrite Hheap. by apply lookup_app_l_Some. }
  assert (Hnew : heap r' !! length (heap r) = Some rt').
  { by rewrite Hheap, lookup_app_r, Nat.sub_diag by lia. }
  destruct (hasVariables rt) eqn:E; destruct Hreg as [Hst Hvr]; split.
  - intros k q Hk. rewrite Hst in Hk.
    destruct (Hs k q Hk) as (rt0 & Hq & H0). eauto.
  - intros q Hq. rewrite Hvr in Hq. apply elem_of_app in Hq as [Hq|Hq].
    + destruct (Hv q Hq) as (rt0 & Hq0 & H0). eauto.
    + apply list_elem_of_singleton in Hq as ->. eauto.
  - intros k q Hk. rewrite Hst in Hk.
    destruct (decide (originalPattern rt = k)) as [Heq|Hne].
    + rewrite Heq, lookup_insert_eq in Hk. injection Hk as <-.
      exists rt'. split; [done|]. split; congruence.
    + rewrite lookup_insert_ne in Hk by done.
      destruct (Hs k q Hk) as (rt0 & Hq & H0). eauto.
  - intros q Hq. rewrite Hvr in Hq.
    destruct (Hv q Hq) as (rt0 & Hq0 & H0). eauto.
Qed.

(** X9: the registry stays classified: in a router built from [NewRouter]
    by calls of [HandleFunc], whatever their outcome, every entry of the
    static table is a route without variables stored under its own pattern
    and every variable route has variables. In such a router a route without
    variables is found only for a path whose normal form is its pattern, and
    a route with variables only when it is among the variable routes and
    compares true with the tokenized path. *)
Theorem registry_classified :
  classified NewRouter
  ∧ (∀ r r' pattern ms hd res,
       classified r → HandleFunc r pattern ms hd = (res, r') → classified r')
  ∧ (∀ cmp r path q,
       classified r → findRoute cmp r path = Ok (Some q) →
       ∃ rt, heap r !! q = Some rt
           ∧ (hasVariables rt = false →
              processPath path = Ok (originalPattern rt)
              ∧ staticRoutes r !! originalPattern rt = Some q)
           ∧ (hasVariables rt = true →
              q ∈ variableRoutes r
              ∧ ∃ p pd, processPath path = Ok p ∧ staticRoutes r !! p = None
                      ∧ tokenize p = Ok pd ∧ cmp rt pd = true)).
Proof.
  split; [apply classified_NewRouter|]. split.
  - intros r r' pattern ms hd res. apply classified_HandleFunc.
  - intros cmp r path q [Hs Hv] H. unfold findRoute in H.
    apply rbind_Ok in H as (p & Hp & H).
    destruct (staticRoutes r !! p) as [q'|] eqn:Hq.
    + injection H as ->. destruct (Hs p q Hq) as (rt & Hrt & Hvar & Ho).
      exists rt. split; [done|]. split; [|congruence].
      intros _. by rewrite Ho.
    + apply rbind_Ok in H as (pd & Hpd & H).
      apply findRoute_scan_Some in H as (Hin & rt & Hrt & Hc).
      destruct (Hv q Hin) as (rt' & Hrt' & Hvar).
      assert (rt' = rt) as -> by congruence.
      exists rt. split; [done|]. split; [congruence|].
      intros _. split; [done|]. eauto 10.
Qed.

Lemma registry_classified_witness : classified usersRouter.
Proof.
  unfold usersRouter.
  eapply (proj1 (proj2 registry_classified)); [|apply surjective_pairing].
  eapply classified_HandleFunc; [|apply surjective_pairing].
  eapply classified_HandleFunc; [|apply surjective_pairing].
  apply classified_NewRouter.
Defined.

(** ** Routes found before and after a registration *)

Lemma findRoute_scan_ext (cmp : route → pathDetails → bool) (h h2 : list route)
    (vs : list ptr) (pd : pathDetails) (res : option ptr) :
  findRoute_scan cmp h vs pd = Ok res →
  findRoute_scan cmp (h ++ h2) vs pd = Ok res.
Proof.
  induction vs as [|q vs IH]; simpl; [done|].
  unfold deref. destruct (h !! q) as [rt|] eqn:Hq; simpl; [|discriminate].
  rewrite (lookup_app_l_Some _ _ _ _ Hq). simpl.
  destruct (cmp rt pd); simpl; [done|apply IH].
Qed.

Lemma findRoute_scan_app_Some (cmp : route → pathDetails → bool) (h : list route)
    (vs vs2 : list ptr) (pd : pathDetails) (q : ptr) :
  findRoute_scan cmp h vs pd = Ok (Some q) →
  findRoute_scan cmp h (vs ++ vs2) pd = Ok (Some q).
Proof.
  induction vs as [|q' vs IH]; simpl; [discriminate|].
  destruct (deref h q') as [rt|]; simpl; [|discriminate].
  destruct (cmp rt pd); simpl; [done|apply IH].
Qed.

Lemma findRoute_scan_app_None (cmp : route → pathDetails → bool) (h : list route)
    (vs vs2 : list ptr) (pd : pathDetails) :
  findRoute_scan cmp h vs pd = Ok None →
  findRoute_scan cmp h (vs ++ vs2) pd = findRoute_scan cmp h vs2 pd.
Proof.
  induction vs as [|q' vs IH]; simpl; [done|].
  destruct (deref h q') as [rt|]; simpl; [|discriminate].
  destruct (cmp rt pd); simpl; [discriminate|apply IH].
Qed.

Lemma findRoute_scan_singleton (cmp : route → pathDetails → bool)
    (h : list route) (q : ptr) (rt : route) (pd : pathDetails) :
  h !! q = Some rt →
  findRoute_scan cmp h [q] pd = if cmp rt pd then Ok (Some q) else Ok None.
Proof.
  intros Hq. simpl. unfold deref. rewrite Hq. simpl. by destruct (cmp rt pd).
Qed.

Lemma findRoute_scan_None (cmp : route → pathDetails → bool) (h : list route)
    (vs : list ptr) (pd : pathDetails) :
  findRoute_scan cmp h vs pd = Ok None ↔
  ∀ q, q ∈ vs → ∃ rt, h !! q = Some rt ∧ cmp rt pd = false.
Proof.
  induction vs as [|q' vs IH]; simpl.
  - split; [|done]. intros _ q H. by apply not_elem_of_nil in H.
  - unfold deref. destruct (h !! q') as [rt|] eqn:Hq; simpl.
    + destruct (cmp rt pd) eqn:Hc; simpl.
      * split; [discriminate|]. intros H.
        destruct (H q') as (rt' & Hrt' & Hc'); [left|]. congruence.
      * rewrite IH. split.
        -- intros H q Hin. apply elem_of_cons in Hin as [->|Hin]; eauto.
        -- intros H q Hin. apply H. by right.
    + split; [discriminate|]. intros H.
      destruct (H q') as (rt' & Hrt' & _); [left|]. congruence.
Qed.

Lemma findRoute_Ok (cmp : route → pathDetails → bool) (r : HttpRouter)
    (path : string) (res : option ptr) :
  findRoute cmp r path = Ok res ↔
  ∃ p, processPath path = Ok p
     ∧ ((∃ q, staticRoutes r !! p = Some q ∧ res = Some q)
        ∨ (staticRoutes r !! p = None
           ∧ ∃ pd, tokenize p = Ok pd
                 ∧ findRoute_scan cmp (heap r) (variableRoutes r) pd = Ok res)).
Proof.
  unfold findRoute. rewrite rbind_Ok. split.
  - intros (p & Hp & H). exists p. split; [done|].
    destruct (staticRoutes r !! p) as [q|].
    + injection H as <-. left. eauto.
    + right. split; [done|]. by apply rbind_Ok in H.
  - intros (p & Hp & [(q & Hq & ->)|(Hq & pd & Hpd & Hs)]); exists p; rewrite Hq.
    + done.
    + split; [done|]. apply rbind_Ok. eauto.
Qed.

(** X10: [findRoute] returns no route exactly when the path is not empty,
    its normal form is not a key of the static table, it has at most 50
    segments and every variable route compares false with it; on a new
    router this is so for every path that does not make it panic. *)
Theorem findRoute_none (cmp : route → pathDetails → bool) (r : HttpRouter)
    (path : string) :
  (findRoute cmp r path = Ok None ↔
     ∃ p pd, processPath path = Ok p ∧ staticRoutes r !! p = None
           ∧ tokenize p = Ok pd
           ∧ ∀ q, q ∈ variableRoutes r →
                  ∃ rt, heap r !! q = Some rt ∧ cmp rt pd = false)
  ∧ (∀ p, processPath path = Ok p → segmentCount p ≤ bufferSize →
       findRoute cmp NewRouter path = Ok None).
Proof.
  split.
  - rewrite findRoute_Ok. split.
    + intros (p & Hp & [(q & _ & [=])|(Hq & pd & Hpd & Hs)]).
      exists p, pd. by rewrite <- findRoute_scan_None.
    + intros (p & pd & Hp & Hq & Hpd & Hall). exists p. split; [done|].
      right. split; [done|]. exists pd. by rewrite findRoute_scan_None.
  - intros p Hp Hle. apply findRoute_Ok. exists p. split; [done|].
    right. split; [apply lookup_empty|].
    rewrite tokenize_spec, decide_True by done. eauto.
Qed.

Lemma findRoute_none_witness :
  findRoute compare NewRouter "/users/42/" = Ok None.
Proof.
  apply (proj2 (findRoute_none compare NewRouter "/users/42/") "/users/42").
  - reflexivity.
  - vm_compute. lia.
Defined.

(** X11: a call of [HandleFunc], whatever its outcome, leaves the routes of
    the store as they are, and changes the route found for a path only in two
    ways: a path that found a route finds the same one, unless the call
    registered a pattern without variables that is the normal form of the
    path, which then finds the new route; a path that found none finds none
    or the new route. *)
Theorem registration_keeps_matches (cmp : route → pathDetails → bool)
    (r r' : HttpRouter) (pattern : string) (ms : list Method)
    (hd : option HandlerFunc) (res : result unit) :
  HandleFunc r pattern ms hd = (res, r') →
  (∀ q, q < length (heap r) → heap r' !! q = heap r !! q)
  ∧ (∀ path q, findRoute cmp r path = Ok (Some q) →
       findRoute cmp r' path = Ok (Some q)
       ∨ (findRoute cmp r' path = Ok (Some (length (heap r)))
          ∧ ∃ rt, heap r' !! length (heap r) = Some rt
                ∧ hasVariables rt = false
                ∧ processPath path = Ok (originalPattern rt)))
  ∧ (∀ path, findRoute cmp r path = Ok None →
       findRoute cmp r' path = Ok None
       ∨ findRoute cmp r' path = Ok (Some (length (heap r)))).
Proof.
  intros H.
  apply HandleFunc_effect in H
    as [(-> & _)|(rt & rt' & Hn & Hheap & Ho & _ & Hvar & _ & Hreg & _)].
  { split; [done|]. split; intros; by left. }
  assert (Hnew : heap r' !! length (heap r) = Some rt')
    by (by rewrite Hheap, lookup_app_r, Nat.sub_diag by lia).
  split; [intros q Hq; by rewrite Hheap, lookup_app_l|].
  destruct (hasVariables rt) eqn:E; destruct Hreg as [Hst Hvr].
  - split.
    + intros path q Hf. left. apply findRoute_Ok in Hf as (p & Hp & Hf).
      apply findRoute_Ok. exists p. split; [done|]. rewrite Hst.
      destruct Hf as [Hf|(Hq & pd & Hpd & Hs)]; [by left|right].
      split; [done|]. exists pd. split; [done|]. rewrite Hheap, Hvr.
      by apply findRoute_scan_app_Some, findRoute_scan_ext.
    + intros path Hf. apply findRoute_Ok in Hf as (p & Hp & Hf).
      destruct Hf as [(q & _ & [=])|(Hq & pd & Hpd & Hs)].
      assert (Hs' : findRoute_scan cmp (heap r') (variableRoutes r') pd
                    = if cmp rt' pd then Ok (Some (length (heap r))) else Ok None).
      { rewrite Hvr. etrans.
        - apply findRoute_scan_app_None. rewrite Hheap. by apply findRoute_scan_ext.
        - by apply findRoute_scan_singleton. }
      destruct (cmp rt' pd); [right|left];
        apply findRoute_Ok; exists p; (split; [done|]); right;
        rewrite Hst; eauto.
  - assert (Hlook : ∀ p, p ≠ originalPattern rt →
              staticRoutes r' !! p = staticRoutes r !! p).
    { intros p Hp. rewrite Hst. by apply lookup_insert_ne. }
    assert (Hkey : staticRoutes r' !! originalPattern rt = Some (length (heap r))).
    { rewrite Hst. apply lookup_insert_eq. }
    split.
    + intros path q Hf. apply findRoute_Ok in Hf as (p & Hp & Hf).
      destruct (decide (p = originalPattern rt)) as [->|Hne].
      * right. split; [by apply findRoute_static with (originalPattern rt)|].
        exists rt'. split; [done|]. split; congruence.
      * left. apply findRoute_Ok. exists p. split; [done|].
        rewrite (Hlook p Hne).
        destruct Hf as [Hf|(Hq & pd & Hpd & Hs)]; [by left|right].
        split; [done|]. exists pd. split; [done|]. rewrite Hheap, Hvr.
        by apply findRoute_scan_ext.
    + intros path Hf. apply findRoute_Ok in Hf as (p & Hp & Hf).
      destruct (decide (p = originalPattern rt)) as [->|Hne].
      * right. by apply findRoute_static with (originalPattern rt).
      * left. apply findRoute_Ok. exists p. split; [done|].
        rewrite (Hlook p Hne).
        destruct Hf as [(q & _ & [=])|(Hq & pd & Hpd & Hs)]. right.
        split; [done|]. exists pd. split; [done|]. rewrite Hheap, Hvr.
        by apply findRoute_scan_ext.
Qed.

Lemma registration_keeps_matches_witness :
  (∀ q, q < length (heap (HandleFunc NewRouter "/:a/:b" [GET] (Some 1)).2) →
     heap shadowingRouter !! q
     = heap (HandleFunc NewRouter "/:a/:b" [GET] (Some 1)).2 !! q)
  ∧ (∀ path q,
       findRoute compare (HandleFunc NewRouter "/:a/:b" [GET] (Some 1)).2 path
       = Ok (Some q) →
       findRoute compare shadowingRouter path = Ok (Some q)
       ∨ (findRoute compare shadowingRouter path
          = Ok (Some (length (heap (HandleFunc NewRouter "/:a/:b" [GET] (Some 1)).2)))
          ∧ ∃ rt, heap shadowingRouter
                    !! length (heap (HandleFunc NewRouter "/:a/:b" [GET] (Some 1)).2)
                  = Some rt
                ∧ hasVariables rt = false
                ∧ processPath path = Ok (originalPattern rt)))
  ∧ (∀ path,
       findRoute compare (HandleFunc NewRouter "/:a/:b" [GET] (Some 1)).2 path
       = Ok None →
       findRoute compare shadowingRouter path = Ok None
       ∨ findRoute compare shadowingRouter path
         = Ok (Some (length (heap (HandleFunc NewRouter "/:a/:b" [GET] (Some 1)).2)))).
Proof.
  apply (registration_keeps_matches compare
           (HandleFunc NewRouter "/:a/:b" [GET] (Some 1)).2 shadowingRouter
           "/users/:id" [GET] (Some 2) (Ok ())).
  reflexivity.
Defined.

(** ** When a request panics *)




(** ** Overriding a status-code handler, and calls to nil *)

Lemma lookupStatus_Some (t : gmap nat HandlerFunc) (statusCode : Z)
    (h : HandlerFunc) :
  lookupStatus t statusCode = Some h →
  (0 ≤ statusCode)%Z ∧ t !! Z.to_nat statusCode = Some h.
Proof.
  unfold lookupStatus. destruct (statusCode <? 0)%Z eqn:E; [discriminate|].
  apply Z.ltb_ge in E. done.
Qed.

(** X13: [HttpStatusCodeHandler] returns exactly when the status code is in
    the table and the handler is not nil; it panics with the router unchanged
    when the code is not in the table, and otherwise when the handler is nil.
    When it returns, the code is bound to the closure made from the code and
    the handler, every other code keeps its handler, no code is added, and
    the routes, hence the route found for any path, are unchanged. *)
Theorem HttpStatusCodeHandler_overrides (wrap : Z → HandlerFunc → HandlerFunc)
    (r : HttpRouter) (statusCode : Z) (hd : option HandlerFunc) :
  ((HttpStatusCodeHandler wrap r statusCode hd).1 = inr () ↔
     is_Some (lookupStatus (httpStatusCodeHandlers r) statusCode) ∧ hd ≠ None)
  ∧ (lookupStatus (httpStatusCodeHandlers r) statusCode = None →
     HttpStatusCodeHandler wrap r statusCode hd
     = (inl (StatusCodeNotSupported statusCode), r))
  ∧ (is_Some (lookupStatus (httpStatusCodeHandlers r) statusCode) →
     hd = None →
     HttpStatusCodeHandler wrap r statusCode hd
     = (inl (StatusHandlerNotDefined statusCode), r))
  ∧ (∀ r', HttpStatusCodeHandler wrap r statusCode hd = (inr (), r') →
       ∃ h, hd = Some h
          ∧ lookupStatus (httpStatusCodeHandlers r') statusCode
            = Some (wrap statusCode h)
          ∧ (∀ c, c ≠ statusCode →
               lookupStatus (httpStatusCodeHandlers r') c
               = lookupStatus (httpStatusCodeHandlers r) c)
          ∧ dom (httpStatusCodeHandlers r') = dom (httpStatusCodeHandlers r)
          ∧ heap r' = heap r ∧ staticRoutes r' = staticRoutes r
          ∧ variableRoutes r' = variableRoutes r
          ∧ ∀ cmp path, findRoute cmp r' path = findRoute cmp r path).
Proof.
  unfold HttpStatusCodeHandler.
  destruct (lookupStatus (httpStatusCodeHandlers r) statusCode) as [old|] eqn:Hl.
  - destruct (lookupStatus_Some _ _ _ Hl) as [Hpos Hold].
    destruct hd as [h|]; simpl.
    + split; [split; [eauto|done]|]. split; [done|]. split; [done|].
      intros r' [= <-]. exists h. simpl. split; [done|]. split; [|split; [|split]].
      * unfold lookupStatus. rewrite (proj2 (Z.ltb_ge _ _) Hpos).
        apply lookup_insert_eq.
      * intros c Hc. unfold lookupStatus.
        destruct (c <? 0)%Z eqn:E; [done|]. apply Z.ltb_ge in E.
        apply lookup_insert_ne. lia.
      * apply dom_insert_lookup_L. eauto.
      * done.
    + split; [split; [discriminate|by intros [_ ?]]|]. split; [done|].
      split; [done|]. discriminate.
  - simpl. split; [split; [discriminate|by intros [[? [=]] _]]|].
    split; [done|]. split; [by intros [? [=]]|]. discriminate.
Qed.

Lemma HttpStatusCodeHandler_overrides_witness :
  ∃ h, Some 9 = Some h
     ∧ lookupStatus
         (httpStatusCodeHandlers
            (HttpStatusCodeHandler (λ c h, 1000 + h) NewRouter 404 (Some 9)).2) 404
       = Some (1000 + h)
     ∧ (∀ c, c ≠ 404%Z →
          lookupStatus
            (httpStatusCodeHandlers
               (HttpStatusCodeHandler (λ c h, 1000 + h) NewRouter 404 (Some 9)).2) c
          = lookupStatus (httpStatusCodeHandlers NewRouter) c)
     ∧ dom (httpStatusCodeHandlers
              (HttpStatusCodeHandler (λ c h, 1000 + h) NewRouter 404 (Some 9)).2)
       = dom (httpStatusCodeHandlers NewRouter)
     ∧ heap (HttpStatusCodeHandler (λ c h, 1000 + h) NewRouter 404 (Some 9)).2
       = heap NewRouter
     ∧ staticRoutes (HttpStatusCodeHandler (λ c h, 1000 + h) NewRouter 404 (Some 9)).2
       = staticRoutes NewRouter
     ∧ variableRoutes (HttpStatusCodeHandler (λ c h, 1000 + h) NewRouter 404 (Some 9)).2
       = variableRoutes NewRouter
     ∧ ∀ cmp path,
         findRoute cmp
           (HttpStatusCodeHandler (λ c h, 1000 + h) NewRouter 404 (Some 9)).2 path
         = findRoute cmp NewRouter path.
Proof.
  apply (proj2 (proj2 (proj2
           (HttpStatusCodeHandler_overrides (λ c h, 1000 + h) NewRouter 404 (Some 9))))).
  reflexivity.
Defined.

Lemma complete_NewRouter : complete NewRouter.
Proof. intros q rt H. simpl in H. by rewrite lookup_nil in H. Qed.

Lemma complete_HandleFunc (r r' : HttpRouter) (pattern : string)
    (ms : list Method) (hd : option HandlerFunc) :
  complete r → HandleFunc r pattern ms hd = (Ok (), r') → complete r'.
Proof.
  intros Hc H.
  apply HandleFunc_effect in H
    as [(_ & e & [=] & _)|(rt & rt' & _ & Hheap & _ & _ & _ & _ & _ & Hiff & Hres)].
  destruct (Hres eq_refl) as [Hm Hh].
  destruct (proj1 Hiff eq_refl) as [Hms Hhd].
  intros q rt0 Hq. rewrite Hheap in Hq.
  apply lookup_app_Some in Hq as [Hq|[_ Hq]]; [by apply (Hc q)|].
  apply list_lookup_singleton_Some in Hq as [_ <-]. by rewrite Hm, Hh.
Qed.




Lemma complete_usersRouter : complete usersRouter.
Proof.
  unfold usersRouter.
  apply (complete_HandleFunc
           (HandleFunc (HandleFunc NewRouter "/users" [GET] (Some 1)).2
              "/users/:id" [GET] (Some 2)).2
           _ "/users/:id/posts" [GET; POST] (Some 3)); [|reflexivity].
  apply (complete_HandleFunc (HandleFunc NewRouter "/users" [GET] (Some 1)).2
           _ "/users/:id" [GET] (Some 2)); [|reflexivity].
  apply (complete_HandleFunc NewRouter _ "/users" [GET] (Some 1)); [|reflexivity].
  apply complete_NewRouter.
Qed.


(** ** The buffer after tokenizing *)

(** X15: when the loop of [findRoute] returns, the buffer still has its 50
    entries: the first [count] are the segments, each beginning with its only
    separator, and the others are left empty. *)
Theorem tokenize_buffer (path : string) (pd : pathDetails) :
  tokenize path = Ok pd →
  length (segments pd) = bufferSize
  ∧ count pd = segmentCount path
  ∧ (∀ i, count pd ≤ i → i < bufferSize → segments pd !! i = Some "")
  ∧ (∀ i s, i < count pd → segments pd !! i = Some s →
       String.get 0 s = Some "/"%char ∧ segmentCount s = 1).
Proof.
  intros H. destruct (tokenize_Ok _ _ H) as (Hc & Hle & Hlen & Ht).
  split; [done|]. split; [done|]. split.
  - intros i Hi Hb. revert H. rewrite tokenize_spec.
    destruct (decide (segmentCount path ≤ bufferSize)); [|discriminate].
    intros [= <-]. simpl in *.
    rewrite lookup_app_r by (rewrite segmentCount_emitted; lia).
    apply lookup_replicate_2. rewrite segmentCount_emitted. lia.
  - intros i s Hi Hs.
    apply (emitted_shape (String.length path) path s); [lia| |].
    + by rewrite drop_ge by (rewrite length_list_ascii; lia).
    + rewrite <- Ht. apply list_elem_of_lookup. exists i.
      by rewrite lookup_take_lt.
Qed.

Lemma tokenize_buffer_witness :
  length (["/"] ++ replicate 49 "") = bufferSize
  ∧ 1 = segmentCount "/"
  ∧ (∀ i, 1 ≤ i → i < bufferSize → (["/"] ++ replicate 49 "") !! i = Some "")
  ∧ (∀ i s, i < 1 → (["/"] ++ replicate 49 "") !! i = Some s →
       String.get 0 s = Some "/"%char ∧ segmentCount s = 1).
Proof.
  apply (tokenize_buffer "/" {| count := 1; segments := ["/"] ++ replicate 49 "" |}).
  reflexivity.
Defined.

(** * The direction of the tokenizers, dispatch and failed registrations *)

(** ** Right to left *)

Lemma separatorsBelow_spec (n : nat) (path : string) (j : nat) :
  j ∈ separatorsBelow n path ↔ j < n ∧ String.get j path = Some "/"%char.
Proof.
  induction n as [|i IH]; simpl.
  - split; [intros H; by apply not_elem_of_nil in H|lia].
  - destruct (String.get i path) as [c|] eqn:Hc.
    + destruct (is_byte c 47) eqn:Hb.
      * apply is_separator in Hb. subst c. rewrite elem_of_cons, IH. split.
        -- intros [->|[? ?]]; split; (lia || done).
        -- intros [Hj Hg]. destruct (decide (j = i)) as [->|]; [by left|right].
           split; [lia|done].
      * rewrite IH. split.
        -- intros [? ?]. split; [lia|done].
        -- intros [Hj Hg]. split; [|done].
           destruct (decide (j = i)) as [->|]; [|lia].
           rewrite Hc in Hg. injection Hg as ->.
           by rewrite (proj2 (is_separator "/"%char)) in Hb.
    + rewrite IH. split.
      * intros [? ?]. split; [lia|done].
      * intros [Hj Hg]. split; [|done].
        destruct (decide (j = i)) as [->|]; [congruence|lia].
Qed.

Lemma separatorsBelow_decreasing (n : nat) (path : string) (j k a b : nat) :
  j < k → separatorsBelow n path !! j = Some a →
  separatorsBelow n path !! k = Some b → b < a.
Proof.
  revert j k. induction n as [|i IH]; simpl; intros j k Hjk Ha Hb.
  - by rewrite lookup_nil in Ha.
  - destruct (String.get i path) as [c|]; [|by apply (IH j k)].
    destruct (is_byte c 47); [|by apply (IH j k)].
    destruct k as [|k]; [lia|]. simpl in Hb.
    destruct j as [|j]; simpl in Ha.
    + injection Ha as <-.
      apply list_elem_of_lookup_2 in Hb. by apply separatorsBelow_spec in Hb as [? _].
    + apply (IH j k); [lia|done|done].
Qed.

Lemma separatorsBelow_slice_to (n i : nat) (path : string) :
  n ≤ i → separatorsBelow n (slice_to path i) = separatorsBelow n path.
Proof.
  induction n as [|j IH]; intros Hn; simpl; [done|].
  rewrite get_slice_to, decide_True by lia. rewrite IH by lia. done.
Qed.

Lemma substring_slice_to (path : string) (i j m : nat) :
  j + m ≤ i → String.substring j m (slice_to path i) = String.substring j m path.
Proof.
  intros H. apply list_ascii_inj.
  rewrite !list_ascii_substring, list_ascii_slice_to.
  rewrite skipn_firstn_comm, take_take. f_equal. lia.
Qed.

(** The string emitted at position [k] starts at the [k]-th separator from
    the right and ends where the string before it starts. *)
Lemma emitted_positions (n : nat) (path : string) :
  n ≤ String.length path →
  length (emitted n path) = length (separatorsBelow n path)
  ∧ ∀ k i, separatorsBelow n path !! k = Some i →
      emitted n path !! k
      = Some (String.substring i
                (segmentEnd (separatorsBelow n path) (String.length path) k - i)
                path).
Proof.
  revert path. induction n as [|j IH]; intros path Hn; simpl.
  - split; [done|]. intros k i H. by rewrite lookup_nil in H.
  - destruct (get_is_Some path j) as [c Hc]; [lia|]. rewrite Hc.
    destruct (is_byte c 47); [|apply IH; lia].
    destruct (IH (slice_to path j)) as [Hlen Hpos]; [rewrite length_slice_to; lia|].
    rewrite separatorsBelow_slice_to in Hlen, Hpos by lia.
    rewrite length_slice_to in Hpos by lia.
    split; [simpl; by rewrite Hlen|].
    intros [|k] i Hi.
    + injection Hi as <-. done.
    + change (separatorsBelow j path !! k = Some i) in Hi.
      refine (eq_trans (Hpos k i Hi) _). f_equal.
      assert (Hlt : i < j).
      { apply list_elem_of_lookup_2 in Hi. by apply separatorsBelow_spec in Hi as [? _]. }
      assert (Hend : segmentEnd (j :: separatorsBelow j path)
                       (String.length path) (S k)
                     = segmentEnd (separatorsBelow j path) j k
                     ∧ segmentEnd (separatorsBelow j path) j k ≤ j).
      { destruct k as [|k]; simpl; [done|].
        assert (∃ x, separatorsBelow j path !! k = Some x) as [x Hx].
        { apply lookup_lt_is_Some_2. apply lookup_lt_Some in Hi. lia. }
        rewrite Hx. simpl. split; [done|].
        apply list_elem_of_lookup_2 in Hx.
        apply separatorsBelow_spec in Hx as [? _]. lia. }
      destruct Hend as [-> Hle].
      apply substring_slice_to. lia.
Qed.

(** C9 (amended): [splitIntoSegments] is [splitPath]. Whenever [splitPath]
    returns at most 50 segments the loop of [findRoute] returns the same
    strings, position for position, and whenever that loop returns strings
    of at least two bytes each [splitPath] returns them as the values of its
    segments. Both go from the rightmost separator toward the leftmost: the
    separators of the path listed from the right are strictly decreasing
    indices, and the string at position [k], of [splitPath] and of the loop
    alike, starts at the [k]-th of them and ends where the string before it
    starts, the first one ending with the path. *)
Theorem tokenizers_agree (path : string) :
  splitIntoSegments path = splitPath path
  ∧ (∀ segs, splitPath path = Ok segs → length segs ≤ bufferSize →
       ∃ pd, tokenize path = Ok pd ∧ count pd = length segs
           ∧ take (count pd) (segments pd) = map value segs)
  ∧ (∀ pd, tokenize path = Ok pd →
       (∀ s, s ∈ take (count pd) (segments pd) → 2 ≤ String.length s) →
       ∃ segs, splitPath path = Ok segs ∧ count pd = length segs
             ∧ map value segs = take (count pd) (segments pd))
  ∧ (∀ j, j ∈ separatorsFromRight path ↔ String.get j path = Some "/"%char)
  ∧ (∀ j k a b, j < k → separatorsFromRight path !! j = Some a →
       separatorsFromRight path !! k = Some b → b < a)
  ∧ (∀ segs, splitPath path = Ok segs →
       length segs = length (separatorsFromRight path)
       ∧ ∀ k i, separatorsFromRight path !! k = Some i →
           ∃ seg, segs !! k = Some seg
                ∧ value seg
                  = String.substring i
                      (segmentEnd (separatorsFromRight path)
                         (String.length path) k - i) path)
  ∧ (∀ pd, tokenize path = Ok pd →
       count pd = length (separatorsFromRight path)
       ∧ ∀ k i, separatorsFromRight path !! k = Some i →
           segments pd !! k
           = Some (String.substring i
                     (segmentEnd (separatorsFromRight path)
                        (String.length path) k - i) path)).
Proof.
  destruct (tokenizers_same_strings path) as (H1 & H2 & H3).
  destruct (emitted_positions (String.length path) path (le_n _)) as [Hlen Hpos].
  fold (separatorsFromRight path) in Hlen, Hpos.
  split; [done|]. split; [done|]. split; [done|].
  split; [|split; [|split]].
  - intros j. unfold separatorsFromRight. rewrite separatorsBelow_spec.
    split; [by intros [_ ?]|]. intros Hg. split; [|done].
    destruct (decide (j < String.length path)); [done|].
    rewrite get_None in Hg by lia. discriminate.
  - intros j k a b. apply separatorsBelow_decreasing.
  - intros segs Hs. rewrite splitPath_spec in Hs.
    apply newSegments_Forall2 in Hs. split.
    + by rewrite <- (Forall2_length _ _ _ Hs).
    + intros k i Hi.
      destruct (Forall2_lookup_l _ _ _ _ _ Hs (Hpos k i Hi)) as (seg & Hseg & Hnew).
      exists seg. split; [done|]. by destruct (newSegment_Ok _ _ Hnew) as (-> & _).
  - intros pd Hpd. destruct (tokenize_Ok _ _ Hpd) as (Hc & Hle & Hl & Ht).
    assert (Hcount : count pd = length (separatorsFromRight path)).
    { rewrite <- Hlen, <- Ht, length_take. lia. }
    split; [done|]. intros k i Hi.
    rewrite <- (Hpos k i Hi), <- Ht. symmetry. apply lookup_take_lt.
    apply lookup_lt_Some in Hi. lia.
Qed.

Lemma tokenizers_agree_witness :
  ∃ pd, tokenize "/users/:id" = Ok pd ∧ count pd = 2
      ∧ take (count pd) (segments pd)
        = map value [ {| value := "/:id"; isVariable := true; ok := true |};
                      {| value := "/users"; isVariable := false; ok := true |} ].
Proof.
  apply (proj1 (proj2 (tokenizers_agree "/users/:id"))
           [ {| value := "/:id"; isVariable := true; ok := true |};
             {| value := "/users"; isVariable := false; ok := true |} ]).
  - reflexivity.
  - vm_compute. lia.
Defined.

Example separatorsFromRight_example :
  separatorsFromRight "/users/:id/posts" = [10; 6; 0].
Proof. reflexivity. Qed.

(** ** Dispatch in a complete router *)

Lemma ServeHTTP_dispatch_witness :
  returns (ServeHTTP compare usersRouter
             {| reqMethod := "DELETE"; reqPath := "/users/42/posts" |}).
Proof.
  apply (proj2 (proj2 (proj2 (proj2 (proj2
           (ServeHTTP_dispatch compare usersRouter
              {| reqMethod := "DELETE"; reqPath := "/users/42/posts" |})))))).
  - apply wf_usersRouter.
  - apply complete_usersRouter.
  - split; eexists; reflexivity.
  - exists (Some 2). reflexivity.
Defined.

(** ** Failed registrations *)



